(** * inja: function storage (include/inja/function_storage.hpp)

    A shallow embedding of [CallbackContainer] (a hand-written tagged union
    over two [std::function] shapes) and of [FunctionStorage] (the registry
    of builtins and callbacks keyed by name and number of arguments),
    followed by the properties of the registry. *)

From Stdlib Require Import NArith Lia.
From stdpp Require Import base option list gmap strings.

(** ** Data shared by every instantiation *)

(** [enum class Type {VALUE, STREAMING, _}]; the source spells the last
    enumerator [_], which is not an identifier here. *)
Inductive Type_ := VALUE | STREAMING | EMPTY.

#[global] Instance Type__eq_dec : EqDecision Type_.
Proof. solve_decision. Defined.

(** Opcodes used by the examples at the end of the file.  [Bytecode::Op] is
    declared in bytecode.hpp; the registry only stores and returns its
    values, so the development takes the type and its [Nop] enumerator as
    parameters and instantiates them here for concrete runs. *)
Inductive SampleOp := SampleNop | SampleUpper | SampleLower.

(** A reference [FunctionData&] / pointer [const FunctionData*] into the
    registry: the key of the vector in [m_map] and the position in it. *)
Definition ref : Type := string * nat.

Section Model.

(** [Bytecode::Op] and its enumerator [Bytecode::Op::Nop]. *)
Variable Op : Type.
Variable Nop : Op.

(** [std::function<json(Arguments&)>] and
    [std::function<void(std::ostream&, Arguments&)>]: the registry never
    calls them, it only copies and moves them. *)
Variable ValueCallbackFunction : Type.
Variable StreamingCallbackFunction : Type.

(** The valid but unspecified state a [std::function] is left in after
    being the source of a move construction. *)
Variable moved_value : ValueCallbackFunction -> ValueCallbackFunction.
Variable moved_streaming : StreamingCallbackFunction -> StreamingCallbackFunction.

(** ** CallbackContainer *)

(** [union Callback]: which member, if any, is within its lifetime in the
    union's storage.  [Callback() {}] starts none. *)
Inductive Callback :=
  | no_member
  | value (function : ValueCallbackFunction)
  | streaming (function : StreamingCallbackFunction).

(** Reading [callback.value] / [callback.streaming]: defined only when that
    member is the live one. *)
Definition get_value (c : Callback) : option ValueCallbackFunction :=
  match c with value f => Some f | _ => None end.

Definition get_streaming (c : Callback) : option StreamingCallbackFunction :=
  match c with streaming f => Some f | _ => None end.

Record CallbackContainer := {
  type : Type_;
  callback : Callback
}.

(** [CallbackContainer() : type(Type::_) {}] *)
Definition CallbackContainer_default : CallbackContainer :=
  {| type := EMPTY; callback := no_member |}.

(** [CallbackContainer(const ValueCallbackFunction&)] *)
Definition CallbackContainer_value (function : ValueCallbackFunction) : CallbackContainer :=
  {| type := VALUE; callback := value function |}.

(** [CallbackContainer(const StreamingCallbackFunction&)] *)
Definition CallbackContainer_streaming (function : StreamingCallbackFunction) : CallbackContainer :=
  {| type := STREAMING; callback := streaming function |}.

(** [~CallbackContainer()]: the state of the union's storage once the body
    has run.  Nothing is destroyed under the tag [_]. *)
Definition CallbackContainer_destroy (this : CallbackContainer) : option Callback :=
  match type this with
  | VALUE => _ ← get_value (callback this); Some no_member
  | STREAMING => _ ← get_streaming (callback this); Some no_member
  | EMPTY => Some (callback this)
  end.

(** [CallbackContainer(const CallbackContainer& other)] *)
Definition CallbackContainer_copy (other : CallbackContainer) : option CallbackContainer :=
  match type other with
  | VALUE =>
      f ← get_value (callback other);
      Some {| type := VALUE; callback := value f |}
  | STREAMING =>
      f ← get_streaming (callback other);
      Some {| type := STREAMING; callback := streaming f |}
  | EMPTY => Some {| type := EMPTY; callback := no_member |}
  end.

(** [CallbackContainer(CallbackContainer&& other)]: the new object, and
    [other] as the move leaves it. *)
Definition CallbackContainer_move (other : CallbackContainer)
  : option (CallbackContainer * CallbackContainer) :=
  match type other with
  | VALUE =>
      f ← get_value (callback other);
      Some ({| type := VALUE; callback := value f |},
            {| type := VALUE; callback := value (moved_value f) |})
  | STREAMING =>
      f ← get_streaming (callback other);
      Some ({| type := STREAMING; callback := streaming f |},
            {| type := STREAMING; callback := streaming (moved_streaming f) |})
  | EMPTY => Some ({| type := EMPTY; callback := no_member |}, other)
  end.

(** [operator=(const CallbackContainer&& other)]: the tag is overwritten and
    the payload is constructed in place over whatever the storage holds;
    [other] is const, so its payload is copied.  Under the tag [_] the
    storage is not touched. *)
Definition operator_assign_move (this other : CallbackContainer) : option CallbackContainer :=
  match type other with
  | VALUE =>
      f ← get_value (callback other);
      Some {| type := VALUE; callback := value f |}
  | STREAMING =>
      f ← get_streaming (callback other);
      Some {| type := STREAMING; callback := streaming f |}
  | EMPTY => Some {| type := EMPTY; callback := callback this |}
  end.

(** [operator=(const CallbackContainer& other)]:
    [return *this = CallbackContainer(other);] *)
Definition operator_assign_copy (this other : CallbackContainer) : option CallbackContainer :=
  tmp ← CallbackContainer_copy other;
  operator_assign_move this tmp.

(** [operator bool()] *)
Definition operator_bool (this : CallbackContainer) : bool :=
  negb (bool_decide (type this = EMPTY)).

(** The tag describes the storage: [VALUE] with a live value-returning
    payload, [STREAMING] with a live streaming payload, [_] with none. *)
Definition consistent (c : CallbackContainer) : bool :=
  match type c, callback c with
  | VALUE, value _ => true
  | STREAMING, streaming _ => true
  | EMPTY, no_member => true
  | _, _ => false
  end.

(** The part of [consistent] the constructors, the assignments and the
    destructor rely on when they read a member: a tag other than [_] names
    the live member. *)
Definition readable (c : CallbackContainer) : bool :=
  match type c, callback c with
  | VALUE, value _ => true
  | STREAMING, streaming _ => true
  | EMPTY, _ => true
  | _, _ => false
  end.

(** The argument types [T] for which [data.function = function] in
    [add_callback] is well-formed, with what the assignment resolves to.
    The shape of the stored callable follows from [T] alone. *)
Class CallbackArgument (T : Type) :=
  assign_function : CallbackContainer -> T -> option CallbackContainer.

(** [T = ValueCallbackFunction]: a temporary is built by the converting
    constructor and bound to [operator=(const CallbackContainer&&)]. *)
#[global] Instance value_argument : CallbackArgument ValueCallbackFunction :=
  fun this function => operator_assign_move this (CallbackContainer_value function).

(** [T = StreamingCallbackFunction]: likewise. *)
#[global] Instance streaming_argument : CallbackArgument StreamingCallbackFunction :=
  fun this function => operator_assign_move this (CallbackContainer_streaming function).

(** [T = CallbackContainer]: [operator=(const CallbackContainer&)]. *)
#[global] Instance container_argument : CallbackArgument CallbackContainer :=
  fun this function => operator_assign_copy this function.

(** ** FunctionStorage *)

(** [struct FunctionData].  [num_args] is an [unsigned int]; it is stored
    and compared for equality, never computed with. *)
Record FunctionData := {
  num_args : N;
  op : Op;
  function : CallbackContainer
}.

(** [FunctionData() : function() {}] with the default member initialisers. *)
Definition FunctionData_default : FunctionData :=
  {| num_args := 0; op := Nop; function := CallbackContainer_default |}.

(** [class FunctionStorage]; a default-constructed one has an empty map. *)
Record FunctionStorage := {
  m_map : gmap string (list FunctionData)
}.

Definition FunctionStorage_default : FunctionStorage := {| m_map := ∅ |}.

(** Member functions: the registry is threaded through, and reading a union
    member that is not live has no result. *)
Definition M (A : Type) : Type := FunctionStorage -> option (A * FunctionStorage).

Definition ret {A} (a : A) : M A := fun this => Some (a, this).

Definition bind {A B} (c : M A) (k : A -> M B) : M B :=
  fun this => match c this with
              | Some (a, this') => k a this'
              | None => None
              end.

Definition lift {A} (o : option A) : M A :=
  fun this => match o with Some a => Some (a, this) | None => None end.

Notation "'do' x <- c1 ; c2" := (bind c1 (fun x => c2))
  (at level 10, x name, c1 at level 100, c2 at level 200).

(** The loops of [get_or_new] and [get]: the position of the first element
    whose [num_args] equals the one asked for. *)
Fixpoint find_num_args (vec : list FunctionData) (n : N) : option nat :=
  match vec with
  | [] => None
  | i :: rest =>
      if N.eqb (num_args i) n then Some 0%nat
      else S <$> find_num_args rest n
  end.

(** Reading through a reference. *)
Definition deref (r : ref) : M FunctionData :=
  fun this =>
    vec ← m_map this !! r.1;
    d ← vec !! r.2;
    Some (d, this).

(** Writing through a reference: the element is replaced by [g] of it. *)
Definition update (r : ref) (g : FunctionData -> option FunctionData) : M unit :=
  fun this =>
    vec ← m_map this !! r.1;
    d ← vec !! r.2;
    d' ← g d;
    Some (tt, {| m_map := <[r.1 := <[r.2 := d']> vec]> (m_map this) |}).

(** [FunctionData& get_or_new(name, num_args)]: [m_map[name]] creates an
    empty vector for a new name. *)
Definition get_or_new (name : string) (n : N) : M ref :=
  fun this =>
    let vec := default [] (m_map this !! name) in
    match find_num_args vec n with
    | Some i => Some ((name, i), {| m_map := <[name := vec]> (m_map this) |})
    | None =>
        let back :=
          {| num_args := n;
             op := op FunctionData_default;
             function := function FunctionData_default |} in
        Some ((name, length vec),
              {| m_map := <[name := vec ++ [back]]> (m_map this) |})
    end.

(** [const FunctionData* get(name, num_args) const]; [None] is [nullptr]. *)
Definition get (name : string) (n : N) : M (option ref) :=
  fun this =>
    match m_map this !! name with
    | None => Some (None, this)
    | Some vec =>
        match find_num_args vec n with
        | Some i => Some (Some (name, i), this)
        | None => Some (None, this)
        end
    end.

(** [void add_builtin(name, num_args, op)] *)
Definition add_builtin (name : string) (n : N) (o : Op) : M unit :=
  do data <- get_or_new name n;
  update data (fun d =>
    Some {| num_args := num_args d; op := o; function := function d |}).

(** [template<typename T> void add_callback(name, num_args, const T& function)] *)
Definition add_callback {T} `{CallbackArgument T} (name : string) (n : N) (f : T) : M unit :=
  do data <- get_or_new name n;
  update data (fun d =>
    c ← assign_function (function d) f;
    Some {| num_args := num_args d; op := op d; function := c |}).

(** [Bytecode::Op find_builtin(name, num_args) const] *)
Definition find_builtin (name : string) (n : N) : M Op :=
  do ptr <- get name n;
  match ptr with
  | Some p => do d <- deref p; ret (op d)
  | None => ret Nop
  end.

(** [CallbackContainer find_callback(name, num_args) const]: the result is
    copy-constructed from [ptr->function]. *)
Definition find_callback (name : string) (n : N) : M CallbackContainer :=
  do ptr <- get name n;
  match ptr with
  | Some p => do d <- deref p; lift (CallbackContainer_copy (function d))
  | None => ret CallbackContainer_default
  end.

(** ** Vocabulary of the properties *)

(** A registration call with one of the two callback shapes the registry
    is documented for, or with a builtin opcode. *)
Inductive Registration :=
  | builtin_call (name : string) (n : N) (o : Op)
  | value_call (name : string) (n : N) (f : ValueCallbackFunction)
  | streaming_call (name : string) (n : N) (f : StreamingCallbackFunction).

Definition register (r : Registration) : M unit :=
  match r with
  | builtin_call name n o => add_builtin name n o
  | value_call name n f => add_callback name n f
  | streaming_call name n f => add_callback name n f
  end.

(** A sequence of registrations, oldest first. *)
Fixpoint run (calls : list Registration) : M unit :=
  match calls with
  | [] => ret tt
  | r :: rest => do _ <- register r; run rest
  end.

Definition key_of (r : Registration) : string * N :=
  match r with
  | builtin_call name n _ => (name, n)
  | value_call name n _ => (name, n)
  | streaming_call name n _ => (name, n)
  end.

Definition is_builtin_call (r : Registration) : bool :=
  match r with builtin_call _ _ _ => true | _ => false end.

(** [r] is an [add_builtin] for the key. *)
Definition builtin_for (name : string) (n : N) (r : Registration) : bool :=
  is_builtin_call r && bool_decide (key_of r = (name, n)).

(** [r] is an [add_callback] for the key. *)
Definition callback_for (name : string) (n : N) (r : Registration) : bool :=
  negb (is_builtin_call r) && bool_decide (key_of r = (name, n)).

(** [r'] writes the field that [r] writes, in the element of the same key. *)
Definition rewrites (r r' : Registration) : bool :=
  match r with
  | builtin_call name n _ => builtin_for name n r'
  | value_call name n _ => callback_for name n r'
  | streaming_call name n _ => callback_for name n r'
  end.

(** The opcodes registered under a key, oldest first. *)
Definition registered_ops (name : string) (n : N) (calls : list Registration) : list Op :=
  omap (fun r =>
          match r with
          | builtin_call name' n' o =>
              if bool_decide ((name', n') = (name, n)) then Some o else None
          | _ => None
          end) calls.

(** The containers built from the callbacks registered under a key, oldest
    first. *)
Definition registered_callbacks (name : string) (n : N) (calls : list Registration)
  : list CallbackContainer :=
  omap (fun r =>
          match r with
          | builtin_call _ _ _ => None
          | value_call name' n' f =>
              if bool_decide ((name', n') = (name, n))
              then Some (CallbackContainer_value f) else None
          | streaming_call name' n' f =>
              if bool_decide ((name', n') = (name, n))
              then Some (CallbackContainer_streaming f) else None
          end) calls.

(** The element a lookup for [(name, n)] reaches, if any. *)
Definition entry (name : string) (n : N) (this : FunctionStorage) : option FunctionData :=
  vec ← m_map this !! name;
  i ← find_num_args vec n;
  vec !! i.

(** No two elements of a name's vector have the same [num_args]. *)
Definition unique_arity (this : FunctionStorage) : Prop :=
  forall name vec, m_map this !! name = Some vec -> NoDup (num_args <$> vec).

(** Every stored callable has a tag that describes its storage. *)
Definition storage_consistent (this : FunctionStorage) : Prop :=
  forall name vec d,
    m_map this !! name = Some vec -> d ∈ vec -> consistent (function d) = true.

End Model.

Arguments no_member {_ _}.
Arguments value {_ _} function.
Arguments streaming {_ _} function.
Arguments get_value {_ _} c.
Arguments get_streaming {_ _} c.
Arguments Build_CallbackContainer {_ _} type callback.
Arguments type {_ _} c.
Arguments callback {_ _} c.
Arguments CallbackContainer_default {_ _}.
Arguments CallbackContainer_value {_ _} function.
Arguments CallbackContainer_streaming {_ _} function.
Arguments CallbackContainer_destroy {_ _} this.
Arguments CallbackContainer_copy {_ _} other.
Arguments CallbackContainer_move {_ _} moved_value moved_streaming other.
Arguments operator_assign_move {_ _} this other.
Arguments operator_assign_copy {_ _} this other.
Arguments operator_bool {_ _} this.
Arguments consistent {_ _} c.
Arguments readable {_ _} c.
Arguments assign_function {_ _ _ _} this function.
Arguments Build_FunctionData {_ _ _} num_args op function.
Arguments num_args {_ _ _} f.
Arguments op {_ _ _} f.
Arguments function {_ _ _} f.
Arguments FunctionData_default {_} Nop {_ _}.
Arguments Build_FunctionStorage {_ _ _} m_map.
Arguments m_map {_ _ _} f.
Arguments FunctionStorage_default {_ _ _}.
Arguments ret {_ _ _ _} a this.
Arguments bind {_ _ _ _ _} c k this.
Arguments lift {_ _ _ _} o this.
Arguments find_num_args {_ _ _} vec n.
Arguments deref {_ _ _} r this.
Arguments update {_ _ _} r g this.
Arguments get_or_new {_} Nop {_ _} name n this.
Arguments get {_ _ _} name n this.
Arguments add_builtin {_} Nop {_ _} name n o this.
Arguments add_callback {_} Nop {_ _ _ _} name n f this.
Arguments find_builtin {_} Nop {_ _} name n this.
Arguments find_callback {_ _ _} name n this.
Arguments builtin_call {_ _ _} name n o.
Arguments value_call {_ _ _} name n f.
Arguments streaming_call {_ _ _} name n f.
Arguments register {_} Nop {_ _} r this.
Arguments run {_} Nop {_ _} calls this.
Arguments key_of {_ _ _} r.
Arguments is_builtin_call {_ _ _} r.
Arguments builtin_for {_ _ _} name n r.
Arguments callback_for {_ _ _} name n r.
Arguments rewrites {_ _ _} r r'.
Arguments registered_ops {_ _ _} name n calls.
Arguments registered_callbacks {_ _ _} name n calls.
Arguments entry {_ _ _} name n this.
Arguments unique_arity {_ _ _} this.
Arguments storage_consistent {_ _ _} this.

(** ** The containers as objects in memory

    The model above takes a [std::function] for its value.  Here the
    [std::function] objects are told apart: each one that is within its
    lifetime has an address and, at that address, a value.  A container
    holds, for the live member of its union, the address of that member.
    Constructing a container constructs its member in storage of its own;
    assigning to a container constructs the member in the storage of that
    container's union, over what was there. *)

Definition address : Type := nat.

Section Placement.

Variable Op : Type.
Variable Nop : Op.
Variable ValueCallbackFunction : Type.
Variable StreamingCallbackFunction : Type.

(** Whether [emplace_back] on a vector of the given size finds its
    capacity used up and moves the elements to a new buffer; the growth
    policy is the library's. *)
Variable reallocates : nat -> bool.

(** The value of a [std::function] object, of either signature. *)
Inductive FunctionObject :=
  | value_object (f : ValueCallbackFunction)
  | streaming_object (f : StreamingCallbackFunction).

(** The objects within their lifetime, by address; the addresses from
    [next] on have not been used for any object. *)
Record Store := {
  objects : gmap address FunctionObject;
  next : address
}.

(** A [CallbackContainer], a [FunctionData] and the [FunctionStorage] as
    they lie in memory. *)
Definition Placed : Type := CallbackContainer address address.

Record Memory := {
  registry : FunctionStorage Op address address;
  store : Store
}.

Definition Memory_default : Memory :=
  {| registry := FunctionStorage_default;
     store := {| objects := ∅; next := 0 |} |}.

(** Reading [callback.value] / [callback.streaming] at an address: defined
    when an object of that signature is there. *)
Definition read_value (l : address) (s : Store) : option ValueCallbackFunction :=
  match objects s !! l with
  | Some (value_object f) => Some f
  | _ => None
  end.

Definition read_streaming (l : address) (s : Store) : option StreamingCallbackFunction :=
  match objects s !! l with
  | Some (streaming_object f) => Some f
  | _ => None
  end.

(** Placement new at an address: the object that was there, if any, is
    gone without its destructor having run. *)
Definition construct_at (l : address) (o : FunctionObject) (s : Store) : Store :=
  {| objects := <[l := o]> (objects s); next := next s |}.

(** Storage that holds no object yet. *)
Definition new_address (s : Store) : address * Store :=
  (next s, {| objects := objects s; next := S (next s) |}).

(** The end of the lifetime of the object at an address. *)
Definition release (l : address) (s : Store) : Store :=
  {| objects := delete l (objects s); next := next s |}.

(** Where the live member of a union is. *)
Definition address_of (c : Callback address address) : option address :=
  match c with
  | no_member => None
  | value l => Some l
  | streaming l => Some l
  end.

(** The storage of a union: that of its live member, or storage that
    holds no object. *)
Definition union_storage (c : Callback address address) (s : Store) : address * Store :=
  match address_of c with
  | Some l => (l, s)
  | None => new_address s
  end.

(** [CallbackContainer(const ValueCallbackFunction&)] *)
Definition placed_value (f : ValueCallbackFunction) (s : Store) : Placed * Store :=
  let (l, s1) := new_address s in
  ({| type := VALUE; callback := value l |}, construct_at l (value_object f) s1).

(** [CallbackContainer(const StreamingCallbackFunction&)] *)
Definition placed_streaming (f : StreamingCallbackFunction) (s : Store) : Placed * Store :=
  let (l, s1) := new_address s in
  ({| type := STREAMING; callback := streaming l |},
   construct_at l (streaming_object f) s1).

(** [CallbackContainer(const CallbackContainer& other)] *)
Definition placed_copy (other : Placed) (s : Store) : option (Placed * Store) :=
  match type other with
  | VALUE =>
      l ← get_value (callback other);
      f ← read_value l s;
      Some (placed_value f s)
  | STREAMING =>
      l ← get_streaming (callback other);
      f ← read_streaming l s;
      Some (placed_streaming f s)
  | EMPTY => Some ({| type := EMPTY; callback := no_member |}, s)
  end.

(** [~CallbackContainer()] *)
Definition placed_destroy (this : Placed) (s : Store) : option Store :=
  match type this with
  | VALUE =>
      l ← get_value (callback this);
      _ ← read_value l s;
      Some (release l s)
  | STREAMING =>
      l ← get_streaming (callback this);
      _ ← read_streaming l s;
      Some (release l s)
  | EMPTY => Some s
  end.

(** [operator=(const CallbackContainer&& other)]: the member is constructed
    in the storage of [this], as a copy since [other] is const. *)
Definition placed_assign_move (this other : Placed) (s : Store) : option (Placed * Store) :=
  match type other with
  | VALUE =>
      l ← get_value (callback other);
      f ← read_value l s;
      let (l', s1) := union_storage (callback this) s in
      Some ({| type := VALUE; callback := value l' |},
            construct_at l' (value_object f) s1)
  | STREAMING =>
      l ← get_streaming (callback other);
      f ← read_streaming l s;
      let (l', s1) := union_storage (callback this) s in
      Some ({| type := STREAMING; callback := streaming l' |},
            construct_at l' (streaming_object f) s1)
  | EMPTY => Some ({| type := EMPTY; callback := callback this |}, s)
  end.

(** What a growing vector does to one element: the container is
    move-constructed in the new buffer, then the source is destroyed and
    its storage given back.  Under the tag [_] nothing is constructed and
    nothing destroyed; what the old storage held goes with it. *)
Definition placed_relocate (other : Placed) (s : Store) : option (Placed * Store) :=
  match type other with
  | VALUE =>
      l ← get_value (callback other);
      f ← read_value l s;
      let (new, s1) := placed_value f s in
      Some (new, release l s1)
  | STREAMING =>
      l ← get_streaming (callback other);
      f ← read_streaming l s;
      let (new, s1) := placed_streaming f s in
      Some (new, release l s1)
  | EMPTY =>
      Some ({| type := EMPTY; callback := no_member |},
            match address_of (callback other) with
            | Some l => release l s
            | None => s
            end)
  end.

Fixpoint relocate_all (vec : list (FunctionData Op address address)) (s : Store)
  : option (list (FunctionData Op address address) * Store) :=
  match vec with
  | [] => Some ([], s)
  | d :: rest =>
      '(c, s1) ← placed_relocate (function d) s;
      '(rest', s2) ← relocate_all rest s1;
      Some ({| num_args := num_args d; op := op d; function := c |} :: rest', s2)
  end.

(** [get_or_new]: when an element is appended and the vector is at its
    capacity, the elements it has are relocated first. *)
Definition placed_get_or_new (name : string) (n : N) (m : Memory) : option (ref * Memory) :=
  let vec := default [] (m_map (registry m) !! name) in
  match find_num_args vec n with
  | Some _ =>
      '(p, reg) ← get_or_new Nop name n (registry m);
      Some (p, {| registry := reg; store := store m |})
  | None =>
      if reallocates (length vec) then
        '(vec', s) ← relocate_all vec (store m);
        '(p, reg) ← get_or_new Nop name n
                      {| m_map := <[name := vec']> (m_map (registry m)) |};
        Some (p, {| registry := reg; store := s |})
      else
        '(p, reg) ← get_or_new Nop name n (registry m);
        Some (p, {| registry := reg; store := store m |})
  end.

(** [add_builtin] *)
Definition placed_add_builtin (name : string) (n : N) (o : Op) (m : Memory)
  : option (unit * Memory) :=
  '(data, m1) ← placed_get_or_new name n m;
  '(_, reg) ← update data (fun d =>
      Some {| num_args := num_args d; op := o; function := function d |})
      (registry m1);
  Some (tt, {| registry := reg; store := store m1 |}).

(** [add_callback]: [data.function = function] builds a temporary with the
    converting constructor [construct] of the argument's type, assigns it
    with [operator=(const CallbackContainer&&)] and destroys it. *)
Definition placed_add_callback (name : string) (n : N)
    (construct : Store -> Placed * Store) (m : Memory) : option (unit * Memory) :=
  '(data, m1) ← placed_get_or_new name n m;
  '(d, _) ← deref data (registry m1);
  let (tmp, s1) := construct (store m1) in
  '(c, s2) ← placed_assign_move (function d) tmp s1;
  s3 ← placed_destroy tmp s2;
  '(_, reg) ← update data (fun d0 =>
      Some {| num_args := num_args d0; op := op d0; function := c |})
      (registry m1);
  Some (tt, {| registry := reg; store := s3 |}).

(** [find_callback]: the returned container is copy-constructed in storage
    of the caller's. *)
Definition placed_find_callback (name : string) (n : N) (m : Memory)
  : option (Placed * Memory) :=
  '(ptr, _) ← get name n (registry m);
  match ptr with
  | Some p =>
      '(d, _) ← deref p (registry m);
      '(c, s) ← placed_copy (function d) (store m);
      Some (c, {| registry := registry m; store := s |})
  | None => Some ({| type := EMPTY; callback := no_member |}, m)
  end.

Definition placed_register
    (r : Registration Op ValueCallbackFunction StreamingCallbackFunction) (m : Memory)
  : option (unit * Memory) :=
  match r with
  | builtin_call name n o => placed_add_builtin name n o m
  | value_call name n f => placed_add_callback name n (placed_value f) m
  | streaming_call name n f => placed_add_callback name n (placed_streaming f) m
  end.

Fixpoint placed_run
    (calls : list (Registration Op ValueCallbackFunction StreamingCallbackFunction))
    (m : Memory) : option (unit * Memory) :=
  match calls with
  | [] => Some (tt, m)
  | r :: rest => '(_, m1) ← placed_register r m; placed_run rest m1
  end.

(** The container a placed container stands for: its tag, with the value
    of its live member. *)
Definition resolve (s : Store) (c : Placed)
  : option (CallbackContainer ValueCallbackFunction StreamingCallbackFunction) :=
  match callback c with
  | no_member => Some {| type := type c; callback := no_member |}
  | value l => f ← read_value l s; Some {| type := type c; callback := value f |}
  | streaming l =>
      f ← read_streaming l s; Some {| type := type c; callback := streaming f |}
  end.

(** The tag of a placed container describes its union, and the live member
    is an object of the store. *)
Definition placed_consistent (s : Store) (c : Placed) : Prop :=
  match type c, callback c with
  | VALUE, value l => l < next s /\ is_Some (read_value l s)
  | STREAMING, streaming l => l < next s /\ is_Some (read_streaming l s)
  | EMPTY, no_member => True
  | _, _ => False
  end.

(** [l] is the address of the live member of the element at position [i]
    of the vector of [name]. *)
Definition member_at (reg : FunctionStorage Op address address)
    (name : string) (i : nat) (l : address) : Prop :=
  exists vec d,
    m_map reg !! name = Some vec /\ vec !! i = Some d /\
    address_of (callback (function d)) = Some l.

(** Every element's container is consistent, and no two elements have
    their live member at the same address. *)
Definition well_placed (m : Memory) : Prop :=
  (forall name vec i d,
     m_map (registry m) !! name = Some vec -> vec !! i = Some d ->
     placed_consistent (store m) (function d)) /\
  (forall name i name' i' l,
     member_at (registry m) name i l -> member_at (registry m) name' i' l ->
     name = name' /\ i = i').

(** An element in memory stands for an element of values: the same number
    of arguments and opcode, and the container reads as the container of
    values. *)
Definition stands_for (s : Store)
    (dp : FunctionData Op address address)
    (dv : FunctionData Op ValueCallbackFunction StreamingCallbackFunction) : Prop :=
  num_args dp = num_args dv /\ op dp = op dv /\
  resolve s (function dp) = Some (function dv).

(** The registry in memory stands for a registry of values: under every
    name the vectors have the same length and the elements match. *)
Definition represents (m : Memory)
    (this : FunctionStorage Op ValueCallbackFunction StreamingCallbackFunction) : Prop :=
  forall name,
    Forall2 (stands_for (store m))
      (default [] (m_map (registry m) !! name))
      (default [] (m_map this !! name)).

End Placement.

Arguments value_object {_ _} f.
Arguments streaming_object {_ _} f.
Arguments Build_Store {_ _} objects next.
Arguments objects {_ _} s.
Arguments next {_ _} s.
Arguments Build_Memory {_ _ _} registry store.
Arguments registry {_ _ _} m.
Arguments store {_ _ _} m.
Arguments Memory_default {_ _ _}.
Arguments read_value {_ _} l s.
Arguments read_streaming {_ _} l s.
Arguments construct_at {_ _} l o s.
Arguments new_address {_ _} s.
Arguments release {_ _} l s.
Arguments union_storage {_ _} c s.
Arguments placed_value {_ _} f s.
Arguments placed_streaming {_ _} f s.
Arguments placed_copy {_ _} other s.
Arguments placed_destroy {_ _} this s.
Arguments placed_assign_move {_ _} this other s.
Arguments placed_relocate {_ _} other s.
Arguments relocate_all {_ _ _} vec s.
Arguments placed_get_or_new {_} Nop {_ _} reallocates name n m.
Arguments placed_add_builtin {_} Nop {_ _} reallocates name n o m.
Arguments placed_add_callback {_} Nop {_ _} reallocates name n construct m.
Arguments placed_find_callback {_ _ _} name n m.
Arguments placed_register {_} Nop {_ _} reallocates r m.
Arguments placed_run {_} Nop {_ _} reallocates calls m.
Arguments resolve {_ _} s c.
Arguments placed_consistent {_ _} s c.
Arguments member_at {_} reg name i l.
Arguments well_placed {_ _ _} m.
Arguments stands_for {_ _ _} s dp dv.
Arguments represents {_ _ _} m this.

(** ** Sample instantiation for concrete runs *)

Inductive SampleValueFn := sample_upper | sample_lower.
Inductive SampleStreamingFn := sample_join | sample_print.

Definition SampleStorage : Type :=
  FunctionStorage SampleOp SampleValueFn SampleStreamingFn.

Definition sample_empty : SampleStorage := FunctionStorage_default.

(** The registrations of the two scenarios, and a few more. *)
Definition sample_calls : list (Registration SampleOp SampleValueFn SampleStreamingFn) :=
  [ builtin_call "upper" 1 SampleUpper;
    streaming_call "join" 2 sample_join;
    value_call "upper" 2 sample_upper;
    builtin_call "upper" 1 SampleLower;
    value_call "join" 2 sample_lower ].

(** The registry those registrations build. *)
Definition sample_registered : SampleStorage :=
  from_option snd sample_empty (run SampleNop sample_calls sample_empty).

Notation "'do' x <- c1 ; c2" := (bind c1 (fun x => c2))
  (at level 10, x name, c1 at level 100, c2 at level 200).

Section Properties.

Variable Op : Type.
Variable Nop : Op.
Variable ValueCallbackFunction : Type.
Variable StreamingCallbackFunction : Type.

#[local] Abbreviation Container := (CallbackContainer ValueCallbackFunction StreamingCallbackFunction).
#[local] Abbreviation Data := (FunctionData Op ValueCallbackFunction StreamingCallbackFunction).
#[local] Abbreviation Storage := (FunctionStorage Op ValueCallbackFunction StreamingCallbackFunction).
#[local] Abbreviation Call := (Registration Op ValueCallbackFunction StreamingCallbackFunction).

Implicit Types (vec : list Data) (d : Data) (this : Storage) (c : Container).
Implicit Types (name : string) (n : N) (i j : nat) (calls : list Call).

(** ** The callable container *)

Lemma consistent_readable c : consistent c = true -> readable c = true.
Proof. by destruct c as [[] []]. Qed.

Lemma CallbackContainer_copy_readable c :
  readable c = true ->
  exists c', CallbackContainer_copy c = Some c' /\
             consistent c' = true /\ type c' = type c.
Proof. destruct c as [[] []]; cbn; try done; eauto. Qed.

Lemma CallbackContainer_copy_consistent c :
  consistent c = true -> CallbackContainer_copy c = Some c.
Proof. by destruct c as [[] []]. Qed.

(** A copy that tests true is the container it was copied from. *)
Lemma CallbackContainer_copy_populated c c' :
  CallbackContainer_copy c = Some c' -> operator_bool c' = true -> c' = c.
Proof. destruct c as [[] []]; cbn; intros [= <-]; done. Qed.

(** Relocating a consistent container with the move constructor, as a
    growing vector does, constructs the same container. *)
Lemma CallbackContainer_move_consistent moved_value moved_streaming c :
  consistent c = true ->
  exists source,
    CallbackContainer_move moved_value moved_streaming c = Some (c, source) /\
    consistent source = true.
Proof. destruct c as [[] []]; cbn; try done; eauto. Qed.

Lemma CallbackContainer_destroy_consistent c :
  consistent c = true -> CallbackContainer_destroy c = Some no_member.
Proof. by destruct c as [[] []]. Qed.

(** Assigning a container that holds a payload gives that container,
    whatever the target held. *)
Lemma operator_assign_move_populated c other :
  consistent other = true -> type other <> EMPTY ->
  operator_assign_move c other = Some other.
Proof. by destruct other as [[] []]. Qed.

Lemma operator_assign_move_readable c other :
  readable other = true ->
  exists c', operator_assign_move c other = Some c' /\
             readable c' = true /\ type c' = type other.
Proof. destruct other as [[] []]; cbn; try done; eauto. Qed.

(** Move assignment keeps the tag and the storage in agreement except in
    one case: an empty container assigned over one that holds a payload. *)
Lemma operator_assign_move_consistent c other :
  consistent c = true -> consistent other = true ->
  exists c',
    operator_assign_move c other = Some c' /\
    (consistent c' = true <-> type other <> EMPTY \/ type c = EMPTY).
Proof.
  destruct c as [[] []], other as [[] []]; cbn; try done;
    intros _ _; eexists; (split; [reflexivity|]); cbn;
    split; intros; try done; try (by left); try (by right);
    by destruct H.
Qed.

Lemma operator_bool_spec c : operator_bool c = true <-> type c <> EMPTY.
Proof.
  unfold operator_bool. case_bool_decide as H; cbn; split; try done.
Qed.

(** ** The search loop *)

Lemma find_num_args_Some vec n i :
  find_num_args vec n = Some i ->
  exists d, vec !! i = Some d /\ num_args d = n.
Proof.
  revert i. induction vec as [|d vec IH]; intros i; simpl; [done|].
  destruct (N.eqb_spec (num_args d) n) as [Heq|Hne].
  - intros [= <-]. by exists d.
  - destruct (find_num_args vec n) as [k|] eqn:Hk; simpl; [|done].
    intros [= <-]. simpl. by apply IH.
Qed.

Lemma find_num_args_None vec n :
  find_num_args vec n = None ->
  forall d, d ∈ vec -> num_args d <> n.
Proof.
  induction vec as [|d0 vec IH]; simpl; intros Hnone d Hin.
  - by apply elem_of_nil in Hin.
  - destruct (N.eqb_spec (num_args d0) n) as [Heq|Hne]; [done|].
    destruct (find_num_args vec n) eqn:Hk; simpl in Hnone; [done|].
    apply elem_of_cons in Hin as [->|Hin]; [done|]. by apply IH.
Qed.

(** An element with another [num_args] is overwritten in place: the search
    gives the same position for every arity. *)
Lemma find_num_args_insert vec j d d' n :
  vec !! j = Some d -> num_args d' = num_args d ->
  find_num_args (<[j:=d']> vec) n = find_num_args vec n.
Proof.
  revert j. induction vec as [|d0 vec IH]; intros j Hj Hnum; [done|].
  destruct j as [|j]; simpl in *.
  - injection Hj as ->. by rewrite Hnum.
  - by rewrite (IH j Hj Hnum).
Qed.

Lemma find_num_args_app_Some vec vec' n i :
  find_num_args vec n = Some i ->
  find_num_args (vec ++ vec') n = Some i.
Proof.
  revert i. induction vec as [|d vec IH]; intros i; simpl; [done|].
  destruct (N.eqb (num_args d) n); [done|].
  destruct (find_num_args vec n) as [k|]; simpl; [|done].
  intros [= <-]. by rewrite (IH k eq_refl).
Qed.

Lemma find_num_args_app_None vec d n :
  find_num_args vec n = None ->
  find_num_args (vec ++ [d]) n =
    if N.eqb (num_args d) n then Some (length vec) else None.
Proof.
  induction vec as [|d0 vec IH]; simpl; intros Hnone.
  - by destruct (N.eqb (num_args d) n).
  - destruct (N.eqb (num_args d0) n); [done|].
    destruct (find_num_args vec n); simpl in Hnone; [done|].
    rewrite IH by done. by destruct (N.eqb (num_args d) n).
Qed.

(** ** Find-or-create followed by a write through the reference *)

(** The element [emplace_back] appends for arity [n]. *)
#[local] Abbreviation fresh n :=
  (Build_FunctionData n Nop (@CallbackContainer_default ValueCallbackFunction StreamingCallbackFunction)).

Lemma get_or_new_update name n (g : Data -> option Data) this :
  (do data <- get_or_new Nop name n; update data g) this =
    let vec := default [] (m_map this !! name) in
    match find_num_args vec n with
    | Some i =>
        d ← vec !! i; d' ← g d;
        Some (tt, {| m_map := <[name := <[i:=d']> vec]> (m_map this) |})
    | None =>
        d' ← g (fresh n);
        Some (tt, {| m_map := <[name := vec ++ [d']]> (m_map this) |})
    end.
Proof.
  unfold bind, get_or_new, update. cbn zeta.
  destruct (find_num_args _ n) as [i|] eqn:Hfind; cbn.
  - rewrite lookup_insert_eq. cbn.
    destruct (_ !! i) as [d|]; cbn; [|done].
    destruct (g d) as [d'|]; cbn; [|done].
    by rewrite insert_insert_eq.
  - rewrite lookup_insert_eq. cbn.
    rewrite list_lookup_middle by done. cbn.
    destruct (g _) as [d'|]; cbn; [|done].
    rewrite insert_insert_eq. do 3 f_equal.
    rewrite insert_app_r_alt by done.
    by rewrite Nat.sub_diag.
Qed.

Lemma entry_unfold name n this :
  entry name n this =
    (let vec := default [] (m_map this !! name) in
     i ← find_num_args vec n; vec !! i).
Proof. unfold entry. by destruct (m_map this !! name). Qed.

Lemma entry_num_args name n this d :
  entry name n this = Some d -> num_args d = n.
Proof.
  rewrite entry_unfold. cbn zeta.
  destruct (find_num_args _ n) as [i|] eqn:Hfind; [|done]. cbn.
  apply find_num_args_Some in Hfind as (d0 & Hd0 & Hn). congruence.
Qed.

(** What the write leaves behind: the element of the key is [d'], every
    other key reaches the element it reached before, and no arity gets a
    second element. *)
Lemma get_or_new_update_entry name n (g : Data -> option Data) this d' :
  g (default (fresh n) (entry name n this)) = Some d' ->
  num_args d' = n ->
  exists this',
    (do data <- get_or_new Nop name n; update data g) this = Some (tt, this') /\
    entry name n this' = Some d' /\
    (forall name' n', (name', n') <> (name, n) ->
       entry name' n' this' = entry name' n' this) /\
    (unique_arity this -> unique_arity this') /\
    (storage_consistent this -> consistent (function d') = true ->
       storage_consistent this').
Proof.
  intros Hg Hnum. rewrite get_or_new_update.
  rewrite entry_unfold in Hg. cbn zeta in *.
  set (vec := default [] (m_map this !! name)) in *.
  assert (Hvec : forall vec0, m_map this !! name = Some vec0 -> vec0 = vec).
  { intros vec0 H0. unfold vec. by rewrite H0. }
  assert (Hnil : m_map this !! name = None -> vec = []).
  { intros H0. unfold vec. by rewrite H0. }
  clearbody vec.
  destruct (find_num_args vec n) as [i|] eqn:Hfind; cbn in *.
  - (* the key has an element: it is overwritten in place *)
    destruct (find_num_args_Some _ _ _ Hfind) as (d & Hd & Hdn).
    rewrite Hd in *. cbn in *. rewrite Hg. cbn.
    assert (Hsame : num_args d' = num_args d) by congruence.
    assert (Hi : (i < length vec)%nat) by by eapply lookup_lt_Some.
    assert (Hmap : m_map this !! name = Some vec).
    { destruct (m_map this !! name) as [vec0|] eqn:H0.
      - by rewrite (Hvec vec0).
      - rewrite Hnil in Hd by done. done. }
    eexists. split; [done|]. split; [|split; [|split]].
    + unfold entry. cbn. rewrite lookup_insert_eq. cbn.
      rewrite (find_num_args_insert _ _ _ _ _ Hd Hsame), Hfind. cbn.
      by apply list_lookup_insert_eq.
    + intros name' n' Hne. unfold entry. cbn.
      destruct (decide (name' = name)) as [->|Hname].
      * rewrite lookup_insert_eq, Hmap. cbn.
        rewrite (find_num_args_insert _ _ _ _ _ Hd Hsame).
        destruct (find_num_args vec n') as [j|] eqn:Hj; [|done]. cbn.
        apply list_lookup_insert_ne. intros ->.
        destruct (find_num_args_Some _ _ _ Hj) as (dj & Hdj & Hjn).
        apply Hne. f_equal. congruence.
      * by rewrite lookup_insert_ne.
    + intros Huniq name' vec'. cbn.
      destruct (decide (name' = name)) as [->|Hname].
      * rewrite lookup_insert_eq. intros [= <-].
        rewrite list_fmap_insert, Hsame, list_insert_id.
        -- by apply (Huniq name).
        -- by rewrite list_lookup_fmap, Hd.
      * rewrite lookup_insert_ne by done. apply Huniq.
    + intros Hcons Hd' name' vec' d0. cbn.
      destruct (decide (name' = name)) as [->|Hname].
      * rewrite lookup_insert_eq. intros [= <-] Hin.
        apply list_elem_of_lookup in Hin as [j Hj].
        destruct (decide (j = i)) as [->|Hji].
        -- rewrite list_lookup_insert_eq in Hj by done. congruence.
        -- rewrite list_lookup_insert_ne in Hj by done.
           apply (Hcons name vec); [done|]. by eapply list_elem_of_lookup_2.
      * rewrite lookup_insert_ne by done. apply Hcons.
  - (* no element yet: one is appended *)
    rewrite Hg. cbn.
    eexists. split; [done|]. split; [|split; [|split]].
    + unfold entry. cbn. rewrite lookup_insert_eq. cbn.
      rewrite find_num_args_app_None by done.
      rewrite Hnum, N.eqb_refl. cbn. by apply list_lookup_middle.
    + intros name' n' Hne. unfold entry. cbn.
      destruct (decide (name' = name)) as [->|Hname].
      * rewrite lookup_insert_eq. cbn.
        assert (Hn' : n <> n') by (intros ->; by apply Hne).
        destruct (m_map this !! name) as [vec0|] eqn:H0; cbn.
        -- rewrite (Hvec vec0) by done.
           destruct (find_num_args vec n') as [j|] eqn:Hj; cbn.
           ++ rewrite (find_num_args_app_Some _ _ _ _ Hj). cbn.
              apply lookup_app_l. apply find_num_args_Some in Hj as (dj & Hdj & _).
              by eapply lookup_lt_Some.
           ++ rewrite find_num_args_app_None by done.
              rewrite Hnum. by destruct (N.eqb_spec n n').
        -- rewrite Hnil by done. cbn. rewrite Hnum.
           by destruct (N.eqb_spec n n').
      * by rewrite lookup_insert_ne.
    + intros Huniq name' vec'. cbn.
      destruct (decide (name' = name)) as [->|Hname].
      * rewrite lookup_insert_eq. intros [= <-].
        rewrite fmap_app. cbn. apply NoDup_app. split; [|split].
        -- destruct (m_map this !! name) as [vec0|] eqn:H0.
           ++ rewrite <- (Hvec vec0) by done. by apply (Huniq name).
           ++ rewrite Hnil by done. constructor.
        -- intros m Hm Hm'. apply list_elem_of_singleton in Hm'. subst m.
           apply list_elem_of_fmap in Hm as (d0 & Hd0 & Hin).
           apply (find_num_args_None _ _ Hfind d0 Hin). congruence.
        -- apply NoDup_singleton.
      * rewrite lookup_insert_ne by done. apply Huniq.
    + intros Hcons Hd' name' vec' d0. cbn.
      destruct (decide (name' = name)) as [->|Hname].
      * rewrite lookup_insert_eq. intros [= <-] Hin.
        apply elem_of_app in Hin as [Hin|Hin].
        -- destruct (m_map this !! name) as [vec0|] eqn:H0.
           ++ apply (Hcons name vec0); [done|]. by rewrite (Hvec vec0).
           ++ rewrite Hnil in Hin by done. by apply elem_of_nil in Hin.
        -- apply list_elem_of_singleton in Hin. by subst d0.
      * rewrite lookup_insert_ne by done. apply Hcons.
Qed.

Lemma entry_elem_of name n this d :
  entry name n this = Some d ->
  exists vec, m_map this !! name = Some vec /\ d ∈ vec.
Proof.
  unfold entry. destruct (m_map this !! name) as [vec|]; [|done]. cbn.
  destruct (find_num_args vec n) as [i|]; [|done]. cbn.
  intros Hd. exists vec. split; [done|]. by eapply list_elem_of_lookup_2.
Qed.

(** ** Lookups in terms of the element they reach *)

(** The opcode and the callable a lookup for [(name, n)] reads; the
    defaults are those of the two [return] statements for [nullptr]. *)
#[local] Abbreviation stored_op name n this :=
  (from_option op Nop (entry name n this)).
#[local] Abbreviation stored_function name n this :=
  (from_option function CallbackContainer_default (entry name n this)).

Lemma get_entry name n this :
  exists ptr, get name n this = Some (ptr, this) /\
    match ptr with
    | Some p => deref p this = (d ← entry name n this; Some (d, this)) /\
                is_Some (entry name n this)
    | None => entry name n this = None
    end.
Proof.
  unfold get, entry, deref.
  destruct (m_map this !! name) as [vec|] eqn:Hvec; cbn; [|by exists None].
  destruct (find_num_args vec n) as [i|] eqn:Hfind; cbn; [|by exists None].
  exists (Some (name, i)). split; [done|]. cbn. rewrite Hvec. cbn.
  apply find_num_args_Some in Hfind as (d & -> & _). cbn. eauto.
Qed.

Lemma find_builtin_entry name n this :
  find_builtin Nop name n this = Some (stored_op name n this, this).
Proof.
  unfold find_builtin, bind.
  destruct (get_entry name n this) as ([p|] & -> & Hp).
  - destruct Hp as [-> [d ->]]. done.
  - by rewrite Hp.
Qed.

Lemma find_callback_entry name n this :
  find_callback name n this =
    (c ← CallbackContainer_copy (stored_function name n this); Some (c, this)).
Proof.
  unfold find_callback, bind.
  destruct (get_entry name n this) as ([p|] & -> & Hp).
  - destruct Hp as [-> [d ->]]. cbn. unfold lift.
    by destruct (CallbackContainer_copy (function d)).
  - by rewrite Hp.
Qed.

(** ** One registration *)

Lemma default_entry_num_args name n this :
  num_args (default (fresh n) (entry name n this)) = n.
Proof.
  destruct (entry name n this) as [d|] eqn:Hd; [|done].
  by apply entry_num_args in Hd.
Qed.

Lemma default_entry_consistent name n this :
  storage_consistent this ->
  consistent (function (default (fresh n) (entry name n this))) = true.
Proof.
  intros Hcons. destruct (entry name n this) as [d|] eqn:Hd; [|done].
  apply entry_elem_of in Hd as (vec & Hvec & Hin). by apply (Hcons name vec).
Qed.

Lemma add_builtin_step name' n' o this :
  exists this',
    add_builtin Nop name' n' o this = Some (tt, this') /\
    (forall name n,
       stored_op name n this' =
         if bool_decide ((name', n') = (name, n)) then o
         else stored_op name n this) /\
    (forall name n, stored_function name n this' = stored_function name n this) /\
    (unique_arity this -> unique_arity this') /\
    (storage_consistent this -> storage_consistent this').
Proof.
  unfold add_builtin.
  edestruct (get_or_new_update_entry name' n') as (this' & -> & Hkey & Hframe & Huniq & Hcons);
    [reflexivity | apply default_entry_num_args |].
  exists this'. split; [done|]. split; [|split; [|split]].
  - intros name n. case_bool_decide as Hk.
    + injection Hk as <- <-. by rewrite Hkey.
    + by rewrite Hframe by congruence.
  - intros name n. destruct (decide ((name, n) = (name', n'))) as [Hk|Hk].
    + injection Hk as -> ->. rewrite Hkey. cbn.
      by destruct (entry name' n' this).
    + by rewrite Hframe.
  - done.
  - intros H. apply Hcons; [done|]. cbn. by apply default_entry_consistent.
Qed.

Lemma add_callback_step {T} `{!CallbackArgument ValueCallbackFunction StreamingCallbackFunction T}
    name' n' (f : T) c this :
  (forall old, assign_function old f = Some c) ->
  exists this',
    add_callback Nop name' n' f this = Some (tt, this') /\
    (forall name n, stored_op name n this' = stored_op name n this) /\
    (forall name n,
       stored_function name n this' =
         if bool_decide ((name', n') = (name, n)) then c
         else stored_function name n this) /\
    (unique_arity this -> unique_arity this') /\
    (storage_consistent this -> consistent c = true -> storage_consistent this').
Proof.
  intros Hassign. unfold add_callback.
  edestruct (get_or_new_update_entry name' n') as (this' & -> & Hkey & Hframe & Huniq & Hcons);
    [cbn beta; rewrite Hassign; reflexivity | apply default_entry_num_args |].
  exists this'. split; [done|]. split; [|split; [|split]].
  - intros name n. destruct (decide ((name, n) = (name', n'))) as [Hk|Hk].
    + injection Hk as -> ->. rewrite Hkey. cbn.
      by destruct (entry name' n' this).
    + by rewrite Hframe.
  - intros name n. case_bool_decide as Hk.
    + injection Hk as <- <-. by rewrite Hkey.
    + by rewrite Hframe by congruence.
  - done.
  - done.
Qed.

Lemma add_builtin_creates name n o this this' :
  add_builtin Nop name n o this = Some (tt, this') ->
  is_Some (entry name n this').
Proof.
  unfold add_builtin.
  edestruct (get_or_new_update_entry name n) as (this1 & -> & Hkey & _);
    [reflexivity | apply default_entry_num_args |].
  intros [= <-]. by rewrite Hkey.
Qed.

Lemma add_callback_creates {T} `{!CallbackArgument ValueCallbackFunction StreamingCallbackFunction T}
    name n (f : T) this this' :
  add_callback Nop name n f this = Some (tt, this') ->
  is_Some (entry name n this').
Proof.
  unfold add_callback.
  destruct (assign_function (function (default (fresh n) (entry name n this))) f)
    as [c|] eqn:Hassign.
  - edestruct (get_or_new_update_entry name n) as (this1 & -> & Hkey & _);
      [cbn beta; rewrite Hassign; reflexivity | apply default_entry_num_args |].
    intros [= <-]. by rewrite Hkey.
  - rewrite get_or_new_update, entry_unfold in *. cbn zeta in *.
    destruct (find_num_args _ n) as [i|] eqn:Hfind; cbn in *.
    + destruct (_ !! i) as [d|]; cbn in *; [|done]. by rewrite Hassign.
    + by rewrite Hassign.
Qed.

(** The second of two writes to the same key finds the element the first
    one found or created. *)
Lemma get_or_new_update_twice name n (g1 g2 : Data -> Data) this :
  (forall d, num_args (g1 d) = num_args d) ->
  (do _ <- (do data <- get_or_new Nop name n; update data (fun d => Some (g1 d)));
   do data <- get_or_new Nop name n; update data (fun d => Some (g2 d))) this =
  (do data <- get_or_new Nop name n; update data (fun d => Some (g2 (g1 d)))) this.
Proof.
  intros Hnum. unfold bind at 1.
  rewrite (get_or_new_update name n (fun d => Some (g1 d)) this).
  rewrite (get_or_new_update name n (fun d => Some (g2 (g1 d))) this).
  cbn zeta. set (vec := default [] (m_map this !! name)). clearbody vec.
  destruct (find_num_args vec n) as [i|] eqn:Hfind; cbn.
  - destruct (find_num_args_Some _ _ _ Hfind) as (d & Hd & Hdn).
    rewrite Hd. cbn. rewrite get_or_new_update. cbn.
    rewrite lookup_insert_eq. cbn.
    rewrite (find_num_args_insert _ _ _ _ _ Hd (Hnum d)), Hfind.
    rewrite list_lookup_insert_eq by by eapply lookup_lt_Some. cbn.
    by rewrite list_insert_insert_eq, insert_insert_eq.
  - rewrite get_or_new_update. cbn. rewrite lookup_insert_eq. cbn.
    rewrite find_num_args_app_None by done.
    rewrite Hnum. cbn. rewrite N.eqb_refl.
    rewrite list_lookup_middle by done. cbn.
    rewrite insert_insert_eq, insert_app_r_alt, Nat.sub_diag by done.
    done.
Qed.

(** The opcode and the callable a registration writes, if any. *)
Lemma register_step r this :
  exists this',
    register Nop r this = Some (tt, this') /\
    (forall name n,
       stored_op name n this' =
         match r with
         | builtin_call name' n' o =>
             if bool_decide ((name', n') = (name, n)) then o
             else stored_op name n this
         | _ => stored_op name n this
         end) /\
    (forall name n,
       stored_function name n this' =
         match r with
         | builtin_call _ _ _ => stored_function name n this
         | value_call name' n' f =>
             if bool_decide ((name', n') = (name, n))
             then CallbackContainer_value f
             else stored_function name n this
         | streaming_call name' n' f =>
             if bool_decide ((name', n') = (name, n))
             then CallbackContainer_streaming f
             else stored_function name n this
         end) /\
    (unique_arity this -> unique_arity this') /\
    (storage_consistent this -> storage_consistent this').
Proof.
  destruct r as [name' n' o|name' n' f|name' n' f]; cbn [register].
  - apply add_builtin_step.
  - destruct (add_callback_step name' n' f (CallbackContainer_value f) this)
      as (this' & ? & ? & ? & ? & Hcons); [done|].
    exists this'. repeat split; try done. intros; by apply Hcons.
  - destruct (add_callback_step name' n' f (CallbackContainer_streaming f) this)
      as (this' & ? & ? & ? & ? & Hcons); [done|].
    exists this'. repeat split; try done. intros; by apply Hcons.
Qed.

(** ** Sequences of registrations *)


(** Every sequence runs to completion; a field is left as it was by the
    calls that do not write it. *)
Lemma run_frame calls this :
  exists this',
    run Nop calls this = Some (tt, this') /\
    (forall name n,
       forallb (fun r => negb (builtin_for name n r)) calls = true ->
       stored_op name n this' = stored_op name n this) /\
    (forall name n,
       forallb (fun r => negb (callback_for name n r)) calls = true ->
       stored_function name n this' = stored_function name n this) /\
    (unique_arity this -> unique_arity this') /\
    (storage_consistent this -> storage_consistent this').
Proof.
  revert this. induction calls as [|r calls IH]; intros this.
  { exists this. by repeat split. }
  destruct (register_step r this) as (this1 & Hreg & Hop1 & Hfn1 & Hu1 & Hc1).
  destruct (IH this1) as (this' & Hrun & Hop & Hfn & Hu & Hc).
  exists this'. cbn [run]. unfold bind. rewrite Hreg.
  split; [done|]. split; [|split; [|split]].
  - intros name n. cbn [forallb]. intros [Hr Hrest]%andb_true_iff.
    rewrite Hop, Hop1 by done.
    destruct r as [name' n' o| |]; try done.
    unfold builtin_for in Hr. cbn in Hr. by destruct (bool_decide _).
  - intros name n. cbn [forallb]. intros [Hr Hrest]%andb_true_iff.
    rewrite Hfn, Hfn1 by done.
    destruct r as [|name' n' f|name' n' f]; try done;
      unfold callback_for in Hr; cbn in Hr; by destruct (bool_decide _).
  - auto.
  - auto.
Qed.

Lemma entry_default name n :
  entry name n (@FunctionStorage_default Op ValueCallbackFunction StreamingCallbackFunction) = None.
Proof. unfold entry. cbn. by rewrite lookup_empty. Qed.

Lemma unique_arity_default :
  unique_arity (@FunctionStorage_default Op ValueCallbackFunction StreamingCallbackFunction).
Proof. intros name vec. cbn. by rewrite lookup_empty. Qed.

Lemma storage_consistent_default :
  storage_consistent (@FunctionStorage_default Op ValueCallbackFunction StreamingCallbackFunction).
Proof. intros name vec d. cbn. by rewrite lookup_empty. Qed.

Lemma forallb_weaken {A} (p q : A -> bool) (l : list A) :
  (forall x, p x = true -> q x = true) ->
  forallb p l = true -> forallb q l = true.
Proof.
  intros Hpq. induction l as [|x l IH]; cbn; [done|].
  intros [Hx Hl]%andb_true_iff. by rewrite (Hpq x Hx), IH.
Qed.

Lemma other_key_not_builtin_for name n (r : Call) :
  negb (bool_decide (key_of r = (name, n))) = true ->
  negb (builtin_for name n r) = true.
Proof.
  unfold builtin_for. destruct (bool_decide _); [done|].
  by rewrite andb_false_r.
Qed.

Lemma other_key_not_callback_for name n (r : Call) :
  negb (bool_decide (key_of r = (name, n))) = true ->
  negb (callback_for name n r) = true.
Proof.
  unfold callback_for. destruct (bool_decide _); [done|].
  by rewrite andb_false_r.
Qed.

(** ** Properties of the registry *)


(** C2. A key that no registration was ever made for: [find_builtin]
    returns [Nop], [find_callback] returns a default-constructed (empty)
    container, and both return. *)
Theorem unregistered_lookup calls name n :
  forallb (fun r => negb (bool_decide (key_of r = (name, n)))) calls = true ->
  exists this,
    run Nop calls FunctionStorage_default = Some (tt, this) /\
    find_builtin Nop name n this = Some (Nop, this) /\
    find_callback name n this = Some (CallbackContainer_default, this).
Proof.
  intros Hcalls.
  destruct (run_frame calls FunctionStorage_default) as (this & Hrun & Hop & Hfn & _).
  exists this. split; [done|].
  rewrite find_builtin_entry, find_callback_entry.
  rewrite Hop, Hfn, entry_default; [done| |].
  - eapply forallb_weaken; [|exact Hcalls].
    intros r. apply other_key_not_callback_for.
  - eapply forallb_weaken; [|exact Hcalls].
    intros r. apply other_key_not_builtin_for.
Qed.

(** C5. In every registry reached from a fresh one by registrations, the
    elements stored under a name have pairwise distinct [num_args]. *)
Theorem reachable_unique_arity calls :
  exists this,
    run Nop calls FunctionStorage_default = Some (tt, this) /\
    forall name vec,
      m_map this !! name = Some vec -> NoDup (num_args <$> vec).
Proof.
  destruct (run_frame calls FunctionStorage_default) as (this & Hrun & _ & _ & Huniq & _).
  exists this. split; [done|]. apply Huniq, unique_arity_default.
Qed.

Lemma stored_op_entry name n this this' d :
  is_Some (entry name n this') ->
  stored_op name n this' = stored_op name n this ->
  entry name n this = Some d ->
  op <$> entry name n this' = Some (op d).
Proof. intros [d' Hd'] Heq Hd. rewrite Hd' in *. rewrite Hd in Heq. cbn in *. congruence. Qed.

Lemma stored_function_entry name n this this' d :
  is_Some (entry name n this') ->
  stored_function name n this' = stored_function name n this ->
  entry name n this = Some d ->
  function <$> entry name n this' = Some (function d).
Proof. intros [d' Hd'] Heq Hd. rewrite Hd' in *. rewrite Hd in Heq. cbn in *. congruence. Qed.

(** C3. The two fields of an element are written independently.
    [add_callback] (of either shape) leaves the opcode of the key's element,
    and what [find_builtin] returns for the key, as they were;
    [add_builtin] leaves the callable of the element, and what
    [find_callback] returns, as they were.  From a fresh registry, a key
    that only [add_builtin] was called for has an empty callable, and a key
    that only [add_callback] was called for has opcode [Nop]. *)
Theorem field_independence name n :
  (forall this (f : ValueCallbackFunction),
     exists this',
       add_callback Nop name n f this = Some (tt, this') /\
       (forall d, entry name n this = Some d ->
                  op <$> entry name n this' = Some (op d)) /\
       fst <$> find_builtin Nop name n this' = fst <$> find_builtin Nop name n this) /\
  (forall this (f : StreamingCallbackFunction),
     exists this',
       add_callback Nop name n f this = Some (tt, this') /\
       (forall d, entry name n this = Some d ->
                  op <$> entry name n this' = Some (op d)) /\
       fst <$> find_builtin Nop name n this' = fst <$> find_builtin Nop name n this) /\
  (forall this o,
     exists this',
       add_builtin Nop name n o this = Some (tt, this') /\
       (forall d, entry name n this = Some d ->
                  function <$> entry name n this' = Some (function d)) /\
       fst <$> find_callback name n this' = fst <$> find_callback name n this) /\
  (forall calls,
     forallb (fun r => negb (callback_for name n r)) calls = true ->
     exists this,
       run Nop calls FunctionStorage_default = Some (tt, this) /\
       find_callback name n this = Some (CallbackContainer_default, this)) /\
  (forall calls,
     forallb (fun r => negb (builtin_for name n r)) calls = true ->
     exists this,
       run Nop calls FunctionStorage_default = Some (tt, this) /\
       find_builtin Nop name n this = Some (Nop, this)).
Proof.
  split; [|split; [|split; [|split]]].
  - intros this f.
    destruct (add_callback_step name n f (CallbackContainer_value f) this)
      as (this' & Hadd & Hop & _); [done|].
    exists this'. split; [done|]. split.
    + intros d. apply stored_op_entry; [exact (add_callback_creates name n f this this' Hadd) | apply Hop].
    + by rewrite !find_builtin_entry, Hop.
  - intros this f.
    destruct (add_callback_step name n f (CallbackContainer_streaming f) this)
      as (this' & Hadd & Hop & _); [done|].
    exists this'. split; [done|]. split.
    + intros d. apply stored_op_entry; [exact (add_callback_creates name n f this this' Hadd) | apply Hop].
    + by rewrite !find_builtin_entry, Hop.
  - intros this o.
    destruct (add_builtin_step name n o this) as (this' & Hadd & _ & Hfn & _).
    exists this'. split; [done|]. split.
    + intros d. apply stored_function_entry; [exact (add_builtin_creates name n o this this' Hadd) | apply Hfn].
    + rewrite !find_callback_entry, Hfn.
      by destruct (CallbackContainer_copy _).
  - intros calls Hcalls.
    destruct (run_frame calls FunctionStorage_default) as (this & Hrun & _ & Hfn & _).
    exists this. split; [done|].
    by rewrite find_callback_entry, Hfn, entry_default.
  - intros calls Hcalls.
    destruct (run_frame calls FunctionStorage_default) as (this & Hrun & Hop & _).
    exists this. split; [done|].
    by rewrite find_builtin_entry, Hop, entry_default.
Qed.

(** C6. [add_builtin] is idempotent: a second call with the same arguments
    returns with the registry as the first call left it.  A further call
    with another opcode for the same key replaces the stored opcode, and
    leaves the registry as if only that call had been made. *)
Theorem add_builtin_idempotent this name n o :
  exists this1,
    add_builtin Nop name n o this = Some (tt, this1) /\
    add_builtin Nop name n o this1 = Some (tt, this1) /\
    forall o',
      exists this2,
        add_builtin Nop name n o' this1 = Some (tt, this2) /\
        find_builtin Nop name n this2 = Some (o', this2) /\
        add_builtin Nop name n o' this = Some (tt, this2).
Proof.
  destruct (add_builtin_step name n o this) as (this1 & Hadd & _).
  exists this1. split; [done|].
  assert (Htwice : forall o',
    add_builtin Nop name n o' this1 = add_builtin Nop name n o' this).
  { intros o'.
    pose proof (get_or_new_update_twice name n
      (fun d => {| num_args := num_args d; op := o; function := function d |})
      (fun d => {| num_args := num_args d; op := o'; function := function d |})
      this (fun d => eq_refl)) as H.
    unfold bind at 1 in H. unfold add_builtin in Hadd. rewrite Hadd in H.
    exact H. }
  split; [by rewrite Htwice|].
  intros o'. destruct (add_builtin_step name n o' this) as (this2 & Hadd2 & Hop2 & _).
  exists this2. split; [by rewrite Htwice|]. split; [|done].
  by rewrite find_builtin_entry, Hop2, bool_decide_eq_true_2.
Qed.

(** Dropping registrations made under other keys from a sequence does not
    change what the key's element holds at the end. *)
Lemma run_filter name n (P : Call -> Prop) `{!forall r, Decision (P r)} calls :
  (forall r, key_of r = (name, n) -> P r) ->
  forall this this',
    stored_op name n this = stored_op name n this' ->
    stored_function name n this = stored_function name n this' ->
    exists fin fin',
      run Nop calls this = Some (tt, fin) /\
      run Nop (filter P calls) this' = Some (tt, fin') /\
      stored_op name n fin = stored_op name n fin' /\
      stored_function name n fin = stored_function name n fin'.
Proof.
  intros HP. induction calls as [|r calls IH]; intros this this' Hop Hfn.
  { exists this, this'. by repeat split. }
  destruct (register_step r this) as (this1 & Hreg & Hop1 & Hfn1 & _).
  cbn [run]. unfold bind at 1. rewrite Hreg.
  destruct (decide (P r)) as [HPr|HPr].
  - rewrite filter_cons_True by done.
    destruct (register_step r this') as (this1' & Hreg' & Hop1' & Hfn1' & _).
    cbn [run]. unfold bind at 1. rewrite Hreg'.
    apply IH.
    + rewrite Hop1, Hop1'. destruct r; try done. by rewrite Hop.
    + rewrite Hfn1, Hfn1'. destruct r; try done; by rewrite Hfn.
  - rewrite filter_cons_False by done.
    assert (Hkey : key_of r <> (name, n)) by (intros Hk; by apply HPr, HP).
    apply IH.
    + rewrite Hop1. destruct r; try done.
      by rewrite bool_decide_eq_false_2.
    + rewrite Hfn1. destruct r; try done; by rewrite bool_decide_eq_false_2.
Qed.

(** Every registry reached from a fresh one holds consistent callables. *)
Lemma reachable_storage_consistent calls :
  exists this,
    run Nop calls FunctionStorage_default = Some (tt, this) /\
    storage_consistent this.
Proof.
  destruct (run_frame calls FunctionStorage_default) as (this & Hrun & _ & _ & _ & Hcons).
  exists this. split; [done|]. apply Hcons, storage_consistent_default.
Qed.

Lemma stored_function_consistent name n this :
  storage_consistent this -> consistent (stored_function name n this) = true.
Proof.
  intros Hcons. destruct (entry name n this) as [d|] eqn:Hd; [|done].
  apply entry_elem_of in Hd as (vec & Hvec & Hin). by apply (Hcons name vec).
Qed.

(** On such a registry [find_callback] returns a consistent container. *)
Lemma find_callback_reachable_consistent calls name n :
  exists this c,
    run Nop calls FunctionStorage_default = Some (tt, this) /\
    find_callback name n this = Some (c, this) /\
    consistent c = true.
Proof.
  destruct (reachable_storage_consistent calls) as (this & Hrun & Hcons).
  exists this, (stored_function name n this). split; [done|].
  pose proof (stored_function_consistent name n this Hcons) as Hc.
  by rewrite find_callback_entry, CallbackContainer_copy_consistent.
Qed.

(** C8. Registering a streaming callback under [("join", 2)] in a fresh
    registry: [find_callback] returns a container that tests true and has
    tag [STREAMING], and [find_builtin] returns [Nop].  The shape is that of
    the argument's type; [add_callback] takes no other indication of it (a
    value-returning argument gives tag [VALUE]).  For every container the
    boolean test is true exactly when the tag is not [_]. *)
Theorem scenario_streaming_join (f : StreamingCallbackFunction) (g : ValueCallbackFunction) :
  (exists this c,
     add_callback Nop "join" 2 f FunctionStorage_default = Some (tt, this) /\
     find_callback "join" 2 this = Some (c, this) /\
     operator_bool c = true /\
     type c = STREAMING /\
     callback c = streaming f /\
     find_builtin Nop "join" 2 this = Some (Nop, this)) /\
  (exists this c,
     add_callback Nop "join" 2 g FunctionStorage_default = Some (tt, this) /\
     find_callback "join" 2 this = Some (c, this) /\
     type c = VALUE) /\
  (forall c : Container, operator_bool c = true <-> type c <> EMPTY).
Proof.
  split; [|split].
  - destruct (add_callback_step "join" 2 f (CallbackContainer_streaming f) FunctionStorage_default)
      as (this & Hadd & Hop & Hfn & _); [done|].
    exists this, (CallbackContainer_streaming f). split; [done|].
    rewrite find_callback_entry, find_builtin_entry, Hop, Hfn, entry_default.
    by rewrite bool_decide_eq_true_2.
  - destruct (add_callback_step "join" 2 g (CallbackContainer_value g) FunctionStorage_default)
      as (this & Hadd & Hop & Hfn & _); [done|].
    exists this, (CallbackContainer_value g). split; [done|].
    rewrite find_callback_entry, Hfn.
    by rewrite bool_decide_eq_true_2.
  - apply operator_bool_spec.
Qed.

(** C10. Lookups do not write to the registry: [find_builtin] and
    [find_callback] (and the [get] they share) return with the registry
    they were called on, so no element and no name is created for an
    absent key.  [find_builtin] always returns; [find_callback] returns
    whenever the stored callables are consistent. *)
Theorem lookups_leave_registry this name n :
  (exists ptr, get name n this = Some (ptr, this)) /\
  (exists o, find_builtin Nop name n this = Some (o, this)) /\
  (forall c this', find_callback name n this = Some (c, this') -> this' = this) /\
  (storage_consistent this ->
   exists c, find_callback name n this = Some (c, this)).
Proof.
  split; [|split; [|split]].
  - destruct (get_entry name n this) as (ptr & Hget & _). eauto.
  - rewrite find_builtin_entry. eauto.
  - intros c this'. rewrite find_callback_entry.
    destruct (CallbackContainer_copy _); cbn; [|done]. by intros [= _ <-].
  - intros Hcons. rewrite find_callback_entry.
    rewrite CallbackContainer_copy_consistent by by apply stored_function_consistent.
    eauto.
Qed.

(** The registry reaches such a container when [add_callback] is
    instantiated at [T = CallbackContainer] with an empty argument for a
    key that holds a callback. *)
Lemma add_callback_empty_over_value name n (f : ValueCallbackFunction) this :
  exists this1 this2,
    add_callback Nop name n f this = Some (tt, this1) /\
    add_callback Nop name n (CallbackContainer_default : Container) this1 = Some (tt, this2) /\
    function <$> entry name n this2 = Some {| type := EMPTY; callback := value f |} /\
    ~ storage_consistent this2.
Proof.
  destruct (add_callback_step name n f (CallbackContainer_value f) this)
    as (this1 & Hadd & _ & Hfn & _); [done|].
  destruct (add_callback_creates name n f this this1 Hadd) as [d1 Hd1].
  specialize (Hfn name n). rewrite Hd1, bool_decide_eq_true_2 in Hfn by done.
  cbn in Hfn.
  edestruct (get_or_new_update_entry name n
    (fun d => c ← assign_function (function d) (CallbackContainer_default : Container);
              Some {| num_args := num_args d; op := op d; function := c |}) this1)
    as (this2 & Hadd2 & Hkey & _).
  { rewrite Hd1. cbn. rewrite Hfn. reflexivity. }
  { cbn. by eapply entry_num_args. }
  exists this1, this2. split; [done|]. split; [exact Hadd2|].
  split; [by rewrite Hkey|].
  intros Hcons. apply entry_elem_of in Hkey as (vec & Hvec & Hin).
  by specialize (Hcons name vec _ Hvec Hin).
Qed.

(** C4. The tag of a container does not always describe its storage: move
    assignment and copy assignment of an empty container over one that
    holds a payload set the tag to [_] and leave the payload in place.  The
    result is inconsistent, and its destructor, which goes by the tag,
    leaves the payload undestroyed.  The same holds for either shape. *)
Theorem assign_empty_keeps_payload (f : ValueCallbackFunction) (g : StreamingCallbackFunction) :
  let holds_value : Container := CallbackContainer_value f in
  let holds_streaming : Container := CallbackContainer_streaming g in
  let empty : Container := CallbackContainer_default in
  let left_value : Container := {| type := EMPTY; callback := value f |} in
  let left_streaming : Container := {| type := EMPTY; callback := streaming g |} in
  consistent holds_value = true /\
  consistent holds_streaming = true /\
  consistent empty = true /\
  operator_assign_move holds_value empty = Some left_value /\
  operator_assign_copy holds_value empty = Some left_value /\
  operator_assign_move holds_streaming empty = Some left_streaming /\
  consistent left_value = false /\
  consistent left_streaming = false /\
  CallbackContainer_destroy left_value = Some (value f).
Proof. by repeat split. Qed.

(** ** The container's special member functions *)

(** X1. The destructor is defined exactly on readable containers, and it
    leaves no payload live exactly on consistent ones. *)
Theorem destructor_spec c :
  (is_Some (CallbackContainer_destroy c) <-> readable c = true) /\
  (CallbackContainer_destroy c = Some no_member <-> consistent c = true).
Proof.
  destruct c as [[] []]; cbn; (split; split); intros H;
    solve [ done | eauto | by apply is_Some_None in H ].
Qed.

(** X2. The copy constructor is defined exactly on readable containers.
    Its result is consistent, has the tag of the source, is a fixed point
    of copying, and is the source itself exactly when the source is
    consistent. *)
Theorem copy_constructor_spec c :
  (is_Some (CallbackContainer_copy c) <-> readable c = true) /\
  (forall c',
     CallbackContainer_copy c = Some c' ->
     consistent c' = true /\
     type c' = type c /\
     CallbackContainer_copy c' = Some c' /\
     (c' = c <-> consistent c = true)).
Proof.
  split.
  - destruct c as [[] []]; cbn; split; intros H;
      solve [ done | eauto | by apply is_Some_None in H ].
  - intros c'. destruct c as [[] []]; cbn; intros [= <-];
      (split; [done|]); (split; [done|]); (split; [done|]);
      split; intros H; done.
Qed.

(** X3. The move constructor builds the object the copy constructor would
    build, and is undefined where copying is.  The source keeps its tag
    and stays readable, so its destructor is defined; a consistent source
    stays consistent. *)
Theorem move_constructor_spec moved_value moved_streaming c :
  match CallbackContainer_copy c with
  | Some c' =>
      exists source,
        CallbackContainer_move moved_value moved_streaming c = Some (c', source) /\
        type source = type c /\
        readable source = true /\
        is_Some (CallbackContainer_destroy source) /\
        (consistent c = true -> consistent source = true)
  | None => CallbackContainer_move moved_value moved_streaming c = None
  end.
Proof.
  destruct c as [[] []]; cbn; try done;
    eexists; (split; [reflexivity|]); cbn; eauto.
Qed.

(** X4. Copy assignment is defined exactly when the assigned container is
    readable.  The target takes the tag of the source, and copying the
    target afterwards gives what copying the source gives, whatever the
    target held before.  Assigning a readable container to itself leaves
    it as it is. *)
Theorem copy_assignment_spec c other :
  (is_Some (operator_assign_copy c other) <-> readable other = true) /\
  (forall c',
     operator_assign_copy c other = Some c' ->
     type c' = type other /\
     CallbackContainer_copy c' = CallbackContainer_copy other) /\
  (readable c = true -> operator_assign_copy c c = Some c).
Proof.
  split; [|split].
  - destruct other as [[] []]; cbn; split; intros H;
      solve [ done | eauto | by apply is_Some_None in H ].
  - intros c'. destruct other as [[] []]; cbn; intros [= <-]; done.
  - by destruct c as [[] []].
Qed.

(** ** Which keys the registry knows *)

Lemma register_entry r this :
  exists this',
    register Nop r this = Some (tt, this') /\
    is_Some (entry (key_of r).1 (key_of r).2 this') /\
    (forall name n, (name, n) <> key_of r ->
       entry name n this' = entry name n this).
Proof.
  destruct r as [name' n' o|name' n' f|name' n' f]; cbn [register key_of fst snd].
  - unfold add_builtin.
    edestruct (get_or_new_update_entry name' n') as (this' & -> & Hkey & Hframe & _);
      [reflexivity | apply default_entry_num_args |].
    exists this'. rewrite Hkey. eauto.
  - unfold add_callback.
    edestruct (get_or_new_update_entry name' n') as (this' & -> & Hkey & Hframe & _);
      [reflexivity | apply default_entry_num_args |].
    exists this'. rewrite Hkey. eauto.
  - unfold add_callback.
    edestruct (get_or_new_update_entry name' n') as (this' & -> & Hkey & Hframe & _);
      [reflexivity | apply default_entry_num_args |].
    exists this'. rewrite Hkey. eauto.
Qed.

Lemma run_entry calls this :
  exists this',
    run Nop calls this = Some (tt, this') /\
    forall name n,
      is_Some (entry name n this') <->
      is_Some (entry name n this) \/
      existsb (fun r => bool_decide (key_of r = (name, n))) calls = true.
Proof.
  revert this. induction calls as [|r calls IH]; intros this.
  { exists this. split; [done|]. intros name n. cbn.
    split; [by left | by intros [?|?]]. }
  destruct (register_entry r this) as (this1 & Hreg & Hkey & Hframe).
  destruct (IH this1) as (this' & Hrun & Hiff).
  exists this'. cbn [run]. unfold bind. rewrite Hreg. split; [done|].
  intros name n. rewrite Hiff. cbn [existsb]. rewrite orb_true_iff.
  case_bool_decide as Hk.
  - rewrite Hk in Hkey. cbn in Hkey. tauto.
  - rewrite Hframe by congruence. intuition congruence.
Qed.

(** X5. From a fresh registry, [get] finds an element for a key exactly
    when some registration was made with that name and that number of
    arguments; otherwise it returns the null pointer. *)
Theorem found_iff_registered calls name n :
  exists this,
    run Nop calls FunctionStorage_default = Some (tt, this) /\
    ((exists p, get name n this = Some (Some p, this)) <->
     existsb (fun r => bool_decide (key_of r = (name, n))) calls = true) /\
    (get name n this = Some (None, this) <->
     existsb (fun r => bool_decide (key_of r = (name, n))) calls = false).
Proof.
  destruct (run_entry calls FunctionStorage_default) as (this & Hrun & Hiff).
  exists this. split; [done|].
  specialize (Hiff name n). rewrite entry_default in Hiff.
  destruct (get_entry name n this) as (ptr & Hget & Hptr). rewrite Hget.
  destruct ptr as [p|].
  - destruct Hptr as [_ Hsome]. apply Hiff in Hsome as [Hnone|Hreg].
    + by apply is_Some_None in Hnone.
    + rewrite Hreg. split; split; intros; try done. by exists p.
  - rewrite Hptr in Hiff.
    destruct (existsb _ calls) eqn:Hex.
    + destruct Hiff as [_ Hiff]. destruct Hiff as [? ?]; [by right|done].
    + split; split; try done. intros [p [=]].
Qed.

(** ** The shape of the map *)

Lemma get_or_new_update_shape name n (g : Data -> option Data) this this' :
  (forall d d', g d = Some d' -> num_args d' = num_args d) ->
  (do data <- get_or_new Nop name n; update data g) this = Some (tt, this') ->
  exists vec',
    m_map this' = <[name := vec']> (m_map this) /\
    vec' <> [] /\
    (num_args <$> default [] (m_map this !! name)) `prefix_of` (num_args <$> vec').
Proof.
  intros Hnum. rewrite get_or_new_update. cbn zeta.
  set (vec := default [] (m_map this !! name)). clearbody vec.
  destruct (find_num_args vec n) as [i|] eqn:Hfind; cbn.
  - destruct (vec !! i) as [d|] eqn:Hd; cbn; [|done].
    destruct (g d) as [d'|] eqn:Hg; cbn; [|done].
    intros [= <-]. exists (<[i:=d']> vec). split; [done|]. split.
    + intros Hnil. apply (f_equal length) in Hnil.
      rewrite length_insert in Hnil. apply lookup_lt_Some in Hd. cbn in Hnil. lia.
    + rewrite list_fmap_insert, (Hnum _ _ Hg), list_insert_id; [done|].
      by rewrite list_lookup_fmap, Hd.
  - destruct (g _) as [d'|] eqn:Hg; cbn; [|done].
    intros [= <-]. exists (vec ++ [d']). split; [done|]. split.
    + by destruct vec.
    + rewrite fmap_app. by apply prefix_app_r.
Qed.

Lemma register_shape r this :
  exists this' vec',
    register Nop r this = Some (tt, this') /\
    m_map this' = <[(key_of r).1 := vec']> (m_map this) /\
    vec' <> [] /\
    (num_args <$> default [] (m_map this !! (key_of r).1)) `prefix_of` (num_args <$> vec').
Proof.
  destruct (register_step r this) as (this' & Hreg & _).
  assert (exists vec',
    m_map this' = <[(key_of r).1 := vec']> (m_map this) /\
    vec' <> [] /\
    (num_args <$> default [] (m_map this !! (key_of r).1)) `prefix_of` (num_args <$> vec'))
    as (vec' & H).
  { destruct r as [name n o|name n f|name n f]; cbn [register key_of fst] in *.
    - eapply get_or_new_update_shape; [|exact Hreg].
      by intros d d' [= <-].
    - eapply get_or_new_update_shape; [|exact Hreg].
      cbn. by intros d d' [= <-].
    - eapply get_or_new_update_shape; [|exact Hreg].
      cbn. by intros d d' [= <-]. }
  by exists this', vec'.
Qed.

(** X6. Registrations only append: after any sequence of them every name
    of the map is still there, and the arities stored under it before are
    the first arities stored under it after, in the same order.  No
    element is removed and none changes its position. *)
Theorem registrations_only_append calls this :
  exists this',
    run Nop calls this = Some (tt, this') /\
    forall name vec,
      m_map this !! name = Some vec ->
      exists vec',
        m_map this' !! name = Some vec' /\
        (num_args <$> vec) `prefix_of` (num_args <$> vec').
Proof.
  revert this. induction calls as [|r calls IH]; intros this.
  { exists this. split; [done|]. intros name vec Hvec. by exists vec. }
  destruct (register_shape r this) as (this1 & vec1 & Hreg & Hmap & _ & Hpre).
  destruct (IH this1) as (this' & Hrun & Hkeep).
  exists this'. cbn [run]. unfold bind. rewrite Hreg. split; [done|].
  intros name vec Hvec.
  destruct (decide (name = (key_of r).1)) as [->|Hname].
  - rewrite Hvec in Hpre. cbn in Hpre.
    destruct (Hkeep (key_of r).1 vec1) as (vec' & Hvec' & Hpre').
    { by rewrite Hmap, lookup_insert_eq. }
    exists vec'. split; [done|]. by etrans.
  - apply Hkeep. by rewrite Hmap, lookup_insert_ne.
Qed.

(** X7. In a registry built from a fresh one, the names of the map are the
    names some registration was made under, and no name has an empty
    vector: the vector [m_map[name]] creates is filled by the same call. *)
Theorem names_iff_registered calls :
  exists this,
    run Nop calls FunctionStorage_default = Some (tt, this) /\
    forall name,
      (is_Some (m_map this !! name) <->
       existsb (fun r => bool_decide ((key_of r).1 = name)) calls = true) /\
      m_map this !! name <> Some [].
Proof.
  assert (Hgen : forall calls this,
    exists this',
      run Nop calls this = Some (tt, this') /\
      forall name,
        (is_Some (m_map this' !! name) <->
         is_Some (m_map this !! name) \/
         existsb (fun r => bool_decide ((key_of r).1 = name)) calls = true) /\
        (m_map this !! name <> Some [] -> m_map this' !! name <> Some [])).
  { clear calls. intros calls.
    induction calls as [|r calls IH]; intros this.
    { exists this. split; [done|]. intros name. cbn.
      split; [|done]. split; [by left | by intros [?|?]]. }
    destruct (register_shape r this) as (this1 & vec1 & Hreg & Hmap & Hne & _).
    destruct (IH this1) as (this' & Hrun & Hkeep).
    exists this'. cbn [run]. unfold bind. rewrite Hreg. split; [done|].
    intros name. destruct (Hkeep name) as [Hiff Hnonempty].
    rewrite Hiff, Hmap. cbn [existsb]. rewrite orb_true_iff.
    case_bool_decide as Hk.
    - rewrite Hk, lookup_insert_eq. split.
      + split; [intros; right; by left | intros; left; eauto].
      + intros _. apply Hnonempty. rewrite Hmap, Hk, lookup_insert_eq. congruence.
    - rewrite lookup_insert_ne by done. split.
      + intuition congruence.
      + intros H. apply Hnonempty. by rewrite Hmap, lookup_insert_ne. }
  destruct (Hgen calls FunctionStorage_default) as (this & Hrun & H).
  exists this. split; [done|]. intros name. destruct (H name) as [Hiff Hne].
  split.
  - rewrite Hiff. cbn. rewrite lookup_empty. split; [|by right].
    intros [Hnone|?]; [by apply is_Some_None in Hnone|done].
  - apply Hne. cbn. by rewrite lookup_empty.
Qed.

(** ** How registrations compose *)

(** The element a registration leaves under its key, given the element it
    found or created. *)
#[local] Abbreviation written r d :=
  (match r with
   | builtin_call _ _ o =>
       {| num_args := num_args d; op := o; function := function d |}
   | value_call _ _ f =>
       {| num_args := num_args d; op := op d; function := CallbackContainer_value f |}
   | streaming_call _ _ f =>
       {| num_args := num_args d; op := op d; function := CallbackContainer_streaming f |}
   end).

Lemma register_as_update (r : Call) this :
  register Nop r this =
    (do data <- get_or_new Nop (key_of r).1 (key_of r).2;
     update data (fun d => Some (written r d))) this.
Proof. by destruct r. Qed.

Lemma written_num_args (r : Call) d : num_args (written r d) = num_args d.
Proof. by destruct r. Qed.

Lemma bind_congr {A B} (c1 c2 : Storage -> option (A * Storage))
    (k1 k2 : A -> Storage -> option (B * Storage)) this :
  c1 this = c2 this ->
  (forall a this1, k1 a this1 = k2 a this1) ->
  bind c1 k1 this = bind c2 k2 this.
Proof.
  unfold bind. intros <- Hk. destruct (c1 this) as [[a this1]|]; [apply Hk|done].
Qed.

Lemma register_twice (r1 r2 : Call) this :
  key_of r2 = key_of r1 ->
  (do _ <- register Nop r1; register Nop r2) this =
    (do data <- get_or_new Nop (key_of r1).1 (key_of r1).2;
     update data (fun d => Some (written r2 (written r1 d)))) this.
Proof.
  intros Hkey.
  rewrite <- (get_or_new_update_twice _ _ (fun d => written r1 d) (fun d => written r2 d))
    by apply written_num_args.
  apply bind_congr; [apply register_as_update|].
  intros _ this1. by rewrite register_as_update, Hkey.
Qed.

Lemma rewrites_key (r1 r2 : Call) :
  rewrites r1 r2 = true ->
  key_of r2 = key_of r1 /\ is_builtin_call r2 = is_builtin_call r1.
Proof.
  destruct r1, r2; cbn; unfold builtin_for, callback_for; cbn;
    try done; by intros ?%bool_decide_eq_true.
Qed.

(** X8. A registration that writes the field an earlier one wrote, under
    the same key, replaces it without trace: the registry is the one the
    later registration alone gives.  This holds for a callback of either
    shape replacing one of either shape as it does for opcodes. *)
Theorem later_registration_replaces (r1 r2 : Call) this :
  rewrites r1 r2 = true ->
  (do _ <- register Nop r1; register Nop r2) this = register Nop r2 this.
Proof.
  intros [Hkey Hkind]%rewrites_key.
  rewrite register_twice by done.
  rewrite (register_as_update r2), Hkey.
  by destruct r1, r2.
Qed.

(** The vector a registration leaves under its name, given the vector it
    found there. *)
#[local] Abbreviation upsert r vec :=
  (match find_num_args vec%list (key_of r).2 with
   | Some i =>
       match vec%list !! i with
       | Some d => <[i := written r d]> vec%list
       | None => vec%list
       end
   | None => vec ++ [written r (fresh (key_of r).2)]
   end).

(** A registration rewrites the vector of its name as a function of that
    vector alone, and nothing else of the map. *)
Lemma register_upsert (r : Call) this :
  register Nop r this =
    Some (tt, {| m_map := <[(key_of r).1 :=
                   upsert r (default [] (m_map this !! (key_of r).1))]> (m_map this) |}).
Proof.
  rewrite register_as_update, get_or_new_update. cbn zeta.
  destruct (find_num_args _ _) as [i|] eqn:Hfind; cbn; [|done].
  by destruct (find_num_args_Some _ _ _ Hfind) as (d & -> & _).
Qed.

(** Under one name, registrations for two arities give the same elements
    in either order; the new ones are appended in the order of the calls. *)
Lemma upsert_commute (r1 r2 : Call) vec :
  (key_of r1).2 <> (key_of r2).2 ->
  upsert r2 (upsert r1 vec) ≡ₚ upsert r1 (upsert r2 vec).
Proof.
  intros Hne.
  assert (Hw : forall (r : Call) d, num_args (written r d) = num_args d)
    by apply written_num_args.
  destruct (find_num_args vec (key_of r1).2) as [i|] eqn:H1,
           (find_num_args vec (key_of r2).2) as [j|] eqn:H2.
  - destruct (find_num_args_Some _ _ _ H1) as (di & Hdi & Hni).
    destruct (find_num_args_Some _ _ _ H2) as (dj & Hdj & Hnj).
    assert (Hij : i <> j) by (intros ->; congruence).
    rewrite Hdi, Hdj.
    rewrite (find_num_args_insert _ _ _ _ _ Hdi (Hw r1 di)), H2.
    rewrite (find_num_args_insert _ _ _ _ _ Hdj (Hw r2 dj)), H1.
    rewrite !list_lookup_insert_ne, Hdi, Hdj by done.
    by rewrite (list_insert_insert_ne vec i j).
  - destruct (find_num_args_Some _ _ _ H1) as (di & Hdi & Hni).
    assert (Hi : (i < length vec)%nat) by by eapply lookup_lt_Some.
    rewrite Hdi.
    rewrite (find_num_args_insert _ _ _ _ _ Hdi (Hw r1 di)), H2.
    rewrite (find_num_args_app_Some _ _ _ _ H1).
    rewrite lookup_app_l, Hdi by done.
    by rewrite insert_app_l.
  - destruct (find_num_args_Some _ _ _ H2) as (dj & Hdj & Hnj).
    assert (Hj : (j < length vec)%nat) by by eapply lookup_lt_Some.
    rewrite Hdj.
    rewrite (find_num_args_insert _ _ _ _ _ Hdj (Hw r2 dj)), H1.
    rewrite (find_num_args_app_Some _ _ _ _ H2).
    rewrite lookup_app_l, Hdj by done.
    by rewrite insert_app_l.
  - rewrite !find_num_args_app_None by done.
    rewrite !Hw. cbn.
    destruct (N.eqb_spec (key_of r1).2 (key_of r2).2) as [|_]; [done|].
    destruct (N.eqb_spec (key_of r2).2 (key_of r1).2) as [|_]; [done|].
    rewrite <- !(assoc_L (++)). apply Permutation_app_head, perm_swap.
Qed.

Lemma rewrites_false_key (r1 r2 : Call) :
  rewrites r1 r2 = false ->
  key_of r2 <> key_of r1 \/ is_builtin_call r2 <> is_builtin_call r1.
Proof.
  destruct r1, r2; cbn; unfold builtin_for, callback_for; cbn;
    try (by right); intros ?%bool_decide_eq_false; by left.
Qed.

(** X9. Two registrations that do not write the same field of the same
    key can be made in either order: every lookup returns the same in
    both registries.  The two registries have the same names, and under
    each name the same elements up to their order.  They are equal when
    the two keys are the same or the two names differ. *)
Theorem registrations_commute (r1 r2 : Call) this :
  rewrites r1 r2 = false ->
  exists this12 this21,
    (do _ <- register Nop r1; register Nop r2) this = Some (tt, this12) /\
    (do _ <- register Nop r2; register Nop r1) this = Some (tt, this21) /\
    (forall name n,
       fst <$> find_builtin Nop name n this12 = fst <$> find_builtin Nop name n this21 /\
       fst <$> find_callback name n this12 = fst <$> find_callback name n this21) /\
    (key_of r1 = key_of r2 \/ (key_of r1).1 <> (key_of r2).1 -> this12 = this21) /\
    (forall name,
       (is_Some (m_map this12 !! name) <-> is_Some (m_map this21 !! name)) /\
       default [] (m_map this12 !! name) ≡ₚ default [] (m_map this21 !! name)).
Proof.
  intros Hfree%rewrites_false_key.
  destruct (register_step r1 this) as (this1 & Hr1 & Hop1 & Hfn1 & _).
  destruct (register_step r2 this1) as (this12 & Hr12 & Hop12 & Hfn12 & _).
  destruct (register_step r2 this) as (this2 & Hr2 & Hop2 & Hfn2 & _).
  destruct (register_step r1 this2) as (this21 & Hr21 & Hop21 & Hfn21 & _).
  assert (H12 : (do _ <- register Nop r1; register Nop r2) this = Some (tt, this12))
    by (unfold bind; by rewrite Hr1).
  assert (H21 : (do _ <- register Nop r2; register Nop r1) this = Some (tt, this21))
    by (unfold bind; by rewrite Hr2).
  assert (Hequal :
    key_of r1 = key_of r2 \/ (key_of r1).1 <> (key_of r2).1 -> this12 = this21).
  { intros [Hkey|Hname].
    + rewrite register_twice in H12 by done.
      rewrite register_twice, <- Hkey in H21 by done.
      assert (Hsame : forall d, written r2 (written r1 d) = written r1 (written r2 d)).
      { intros d. destruct r1, r2; cbn in *; try done;
          destruct Hfree as [Hfree|Hfree]; done. }
      rewrite (bind_congr _ _ _ (fun data => update data (fun d => Some (written r1 (written r2 d)))) this
                 eq_refl) in H12.
      * rewrite H12 in H21. by injection H21.
      * intros p this0. unfold update.
        destruct (m_map this0 !! p.1) as [vec|]; cbn; [|done].
        destruct (vec !! p.2) as [d|]; cbn; [|done]. by rewrite Hsame.
    + unfold bind in H12, H21.
      rewrite (register_upsert r1), (register_upsert r2) in H12.
      rewrite (register_upsert r2), (register_upsert r1) in H21.
      cbn in H12, H21.
      rewrite lookup_insert_ne in H12 by done.
      rewrite lookup_insert_ne in H21 by done.
      rewrite insert_insert_ne in H21 by done.
      rewrite H12 in H21. by injection H21. }
  exists this12, this21. split; [done|]. split; [done|]. split; [|split; [done|]].
  - intros name n.
    assert (Hop : stored_op name n this12 = stored_op name n this21).
    { rewrite Hop12, Hop21, Hop1, Hop2.
      destruct r1 as [name1 n1 o1|name1 n1 f1|name1 n1 f1],
               r2 as [name2 n2 o2|name2 n2 f2|name2 n2 f2];
        cbn in Hfree; repeat case_bool_decide; try done;
        destruct Hfree as [Hfree|Hfree]; try done; congruence. }
    assert (Hfn : stored_function name n this12 = stored_function name n this21).
    { rewrite Hfn12, Hfn21, Hfn1, Hfn2.
      destruct r1 as [name1 n1 o1|name1 n1 f1|name1 n1 f1],
               r2 as [name2 n2 o2|name2 n2 f2|name2 n2 f2];
        cbn in Hfree; repeat case_bool_decide; try done;
        destruct Hfree as [Hfree|Hfree]; try done; congruence. }
    rewrite !find_builtin_entry, !find_callback_entry, Hop, Hfn.
    split; [done|]. by destruct (CallbackContainer_copy _).
  - intros name.
    destruct (decide ((key_of r1).1 = (key_of r2).1)) as [Hname|Hname];
      [|by rewrite Hequal by by right].
    destruct (decide ((key_of r1).2 = (key_of r2).2)) as [Harity|Harity].
    { rewrite Hequal; [done|]. left.
      destruct (key_of r1), (key_of r2); cbn in *; congruence. }
    unfold bind in H12, H21.
    rewrite (register_upsert r1), (register_upsert r2) in H12.
    rewrite (register_upsert r2), (register_upsert r1) in H21.
    cbn in H12, H21. rewrite <- Hname in H12, H21.
    rewrite lookup_insert_eq in H12, H21. cbn in H12, H21.
    rewrite insert_insert_eq in H12, H21.
    injection H12 as <-. injection H21 as <-. cbn.
    destruct (decide (name = (key_of r1).1)) as [->|Hother].
    + rewrite !lookup_insert_eq. cbn. split; [done|].
      by apply upsert_commute.
    + by rewrite !lookup_insert_ne.
Qed.

(** ** Whether a callback is set *)

Lemma run_callback_set calls name n this :
  exists this',
    run Nop calls this = Some (tt, this') /\
    operator_bool (stored_function name n this') =
      existsb (callback_for name n) calls || operator_bool (stored_function name n this).
Proof.
  revert this. induction calls as [|r calls IH]; intros this.
  { by exists this. }
  destruct (register_step r this) as (this1 & Hreg & _ & Hfn1 & _).
  destruct (IH this1) as (this' & Hrun & Hset).
  exists this'. cbn [run]. unfold bind. rewrite Hreg. split; [done|].
  assert (Hstep : operator_bool (stored_function name n this1) =
                  callback_for name n r || operator_bool (stored_function name n this)).
  { rewrite Hfn1. unfold callback_for.
    destruct r as [name' n' o|name' n' f|name' n' f]; cbn; [done| |];
      by case_bool_decide. }
  rewrite Hset, Hstep. cbn [existsb].
  by destruct (callback_for name n r), (existsb _ calls), (operator_bool _).
Qed.

(** X10. In a registry built from a fresh one, the container
    [find_callback] returns for a key tests true exactly when some
    [add_callback] was made for that key. *)
Theorem callback_set_iff_registered calls name n :
  exists this c,
    run Nop calls FunctionStorage_default = Some (tt, this) /\
    find_callback name n this = Some (c, this) /\
    operator_bool c = existsb (callback_for name n) calls.
Proof.
  destruct (run_callback_set calls name n FunctionStorage_default) as (this & Hrun & Hset).
  destruct (reachable_storage_consistent calls) as (this_ & Hrun' & Hcons).
  rewrite Hrun in Hrun'. injection Hrun' as <-.
  exists this, (stored_function name n this). split; [done|]. split.
  - rewrite find_callback_entry, CallbackContainer_copy_consistent; [done|].
    by apply stored_function_consistent.
  - rewrite Hset, entry_default. cbn. by rewrite orb_false_r.
Qed.

(** ** [add_callback] with a container argument *)

Lemma operator_assign_copy_then_copy c other c' :
  CallbackContainer_copy other = Some c' ->
  exists r, operator_assign_copy c other = Some r /\
            CallbackContainer_copy r = Some c'.
Proof. destruct other as [[] []]; cbn; intros [= <-]; eauto. Qed.

(** X11. [add_callback] instantiated with a [CallbackContainer] argument:
    when the argument can be copied, [find_callback] for the key then
    returns the copy of the argument, whatever the key held before, and
    [find_builtin] returns what it returned before; an empty argument
    therefore makes the key report no callback again.  When the argument
    cannot be copied the call has no defined result. *)
Theorem add_callback_container this name n (c : Container) :
  match CallbackContainer_copy c with
  | Some c' =>
      exists this',
        add_callback Nop name n c this = Some (tt, this') /\
        find_callback name n this' = Some (c', this') /\
        fst <$> find_builtin Nop name n this' = fst <$> find_builtin Nop name n this
  | None => add_callback Nop name n c this = None
  end.
Proof.
  destruct (CallbackContainer_copy c) as [c'|] eqn:Hcopy.
  - destruct (operator_assign_copy_then_copy
                (function (default (fresh n) (entry name n this))) c c' Hcopy)
      as (r & Hassign & Hr).
    unfold add_callback.
    edestruct (get_or_new_update_entry name n) as (this' & -> & Hkey & _);
      [cbn beta; unfold assign_function, container_argument;
       rewrite Hassign; reflexivity
      | apply default_entry_num_args |].
    exists this'. split; [done|].
    rewrite find_callback_entry, !find_builtin_entry, Hkey. cbn.
    rewrite Hr. split; [done|]. by destruct (entry name n this).
  - unfold add_callback. rewrite get_or_new_update. cbn zeta.
    assert (Hnone : forall old : Container, assign_function old c = None).
    { intros old. unfold assign_function, container_argument, operator_assign_copy.
      by rewrite Hcopy. }
    destruct (find_num_args _ n) as [i|] eqn:Hfind; cbn.
    + destruct (find_num_args_Some _ _ _ Hfind) as (d & -> & _). cbn.
      by rewrite Hnone.
    + by rewrite Hnone.
Qed.

(** ** [get_or_new] and [get] *)

(** X12. [get] after [get_or_new] returns the reference [get_or_new]
    returned, and a second [get_or_new] returns it again without changing
    the registry.  The element referred to has the number of arguments
    asked for.  When [get] already found an element, [get_or_new] returns
    that one and leaves the registry as it is; otherwise the new element
    has opcode [Nop] and an empty callable. *)
Theorem get_after_get_or_new this name n :
  exists p this' d,
    get_or_new Nop name n this = Some (p, this') /\
    get name n this' = Some (Some p, this') /\
    get_or_new Nop name n this' = Some (p, this') /\
    deref p this' = Some (d, this') /\
    num_args d = n /\
    match get name n this with
    | Some (Some p0, _) => p = p0 /\ this' = this
    | _ => op d = Nop /\ function d = CallbackContainer_default /\ this' <> this
    end.
Proof.
  unfold get_or_new, get, deref. destruct this as [m]. cbn.
  destruct (m !! name) as [vec|] eqn:Hvec; cbn.
  - destruct (find_num_args vec n) as [i|] eqn:Hfind; cbn.
    + destruct (find_num_args_Some _ _ _ Hfind) as (d & Hd & Hn).
      exists (name, i), {| m_map := <[name:=vec]> m |}, d. cbn.
      rewrite !lookup_insert_eq. cbn. rewrite Hfind, Hd. cbn.
      rewrite insert_insert_eq, insert_id by done. done.
    + exists (name, length vec), {| m_map := <[name:=vec ++ [fresh n]]> m |}, (fresh n).
      cbn. rewrite !lookup_insert_eq. cbn.
      rewrite find_num_args_app_None by done. cbn. rewrite N.eqb_refl.
      rewrite list_lookup_middle by done. cbn. rewrite insert_insert_eq.
      repeat split; try done.
      intros [= Heq]. apply (f_equal (.!! name)) in Heq.
      rewrite lookup_insert_eq, Hvec in Heq. injection Heq as Heq.
      apply (f_equal length) in Heq. rewrite length_app in Heq. cbn in Heq. lia.
  - exists (name, 0%nat), {| m_map := <[name:=[fresh n]]> m |}, (fresh n).
    cbn. rewrite !lookup_insert_eq. cbn. rewrite N.eqb_refl. cbn.
    rewrite insert_insert_eq. repeat split; try done.
    intros [= Heq]. apply (f_equal (.!! name)) in Heq.
    by rewrite lookup_insert_eq, Hvec in Heq.
Qed.

(** ** Arities of one name *)

(** What the two lookups return for a key after a sequence of
    registrations: what was registered last under the key, or what they
    returned before when nothing was. *)
Lemma run_last calls name n this :
  exists this',
    run Nop calls this = Some (tt, this') /\
    stored_op name n this' =
      default (stored_op name n this) (last (registered_ops name n calls)) /\
    stored_function name n this' =
      default (stored_function name n this) (last (registered_callbacks name n calls)).
Proof.
  revert this. induction calls as [|r calls IH]; intros this.
  { by exists this. }
  destruct (register_step r this) as (this1 & Hreg & Hop1 & Hfn1 & _).
  destruct (IH this1) as (this' & Hrun & Hop & Hfn).
  exists this'. cbn [run]. unfold bind. rewrite Hreg. split; [done|].
  rewrite Hop, Hfn, Hop1, Hfn1. unfold registered_ops, registered_callbacks.
  split.
  - destruct r as [name' n' o|name' n' f|name' n' f]; cbn; try done.
    case_bool_decide; cbn; [|done]. rewrite last_cons.
    by destruct (last (omap _ calls)).
  - destruct r as [name' n' o|name' n' f|name' n' f]; cbn; try done;
      (case_bool_decide; cbn; [|done]); rewrite last_cons;
      by destruct (last (omap _ calls)).
Qed.

Lemma registered_callbacks_consistent name n calls c :
  c ∈ registered_callbacks name n calls -> consistent c = true.
Proof.
  unfold registered_callbacks. intros (r & Hr & Hc)%list_elem_of_omap.
  destruct r as [| |]; try done; case_bool_decide; by simplify_eq.
Qed.

Lemma lookups_last calls name n this0 this :
  run Nop calls this0 = Some (tt, this) ->
  fst <$> find_builtin Nop name n this =
    match last (registered_ops name n calls) with
    | Some o => Some o
    | None => fst <$> find_builtin Nop name n this0
    end /\
  fst <$> find_callback name n this =
    match last (registered_callbacks name n calls) with
    | Some c => Some c
    | None => fst <$> find_callback name n this0
    end.
Proof.
  intros Hrun. destruct (run_last calls name n this0) as (this_ & Hrun' & Hop & Hfn).
  rewrite Hrun in Hrun'. injection Hrun' as <-.
  rewrite !find_builtin_entry, !find_callback_entry, Hop, Hfn. split.
  - by destruct (last (registered_ops name n calls)).
  - destruct (last (registered_callbacks name n calls)) as [c|] eqn:Hlast; cbn.
    + rewrite CallbackContainer_copy_consistent; [done|].
      eapply registered_callbacks_consistent, last_Some_elem_of, Hlast.
    + by destruct (CallbackContainer_copy _).
Qed.

Lemma get_deref name n this p :
  get name n this = Some (Some p, this) ->
  exists d, deref p this = Some (d, this) /\ num_args d = n.
Proof.
  destruct (get_entry name n this) as (ptr & Hget & Hptr). rewrite Hget.
  intros [= ->]. destruct Hptr as [Hderef [d Hd]].
  exists d. rewrite Hderef, Hd. split; [done|]. by eapply entry_num_args.
Qed.

(** C7. Two arities of one name have independent elements.  After any
    sequence of registrations, from any registry: [find_builtin] and
    [find_callback] for each of the two arities return what was registered
    last under that arity (what they returned before, when nothing was);
    an arity that was registered has an element with that [num_args], and
    the elements of the two arities are different ones.  What is returned
    for [(name, a1)] is what is returned when only the registrations under
    [(name, a1)] are run, and when those under [(name, a2)] are left out. *)
Theorem arity_separation name a1 a2 calls this0 :
  a1 <> a2 ->
  exists this only without,
    run Nop calls this0 = Some (tt, this) /\
    run Nop (filter (fun r => key_of r = (name, a1)) calls) this0 = Some (tt, only) /\
    run Nop (filter (fun r => key_of r <> (name, a2)) calls) this0 = Some (tt, without) /\
    fst <$> find_builtin Nop name a1 this = fst <$> find_builtin Nop name a1 only /\
    fst <$> find_callback name a1 this = fst <$> find_callback name a1 only /\
    fst <$> find_builtin Nop name a1 this = fst <$> find_builtin Nop name a1 without /\
    fst <$> find_callback name a1 this = fst <$> find_callback name a1 without /\
    (forall a, a = a1 \/ a = a2 ->
       fst <$> find_builtin Nop name a this =
         match last (registered_ops name a calls) with
         | Some o => Some o
         | None => fst <$> find_builtin Nop name a this0
         end /\
       fst <$> find_callback name a this =
         match last (registered_callbacks name a calls) with
         | Some c => Some c
         | None => fst <$> find_callback name a this0
         end /\
       (existsb (fun r => bool_decide (key_of r = (name, a))) calls = true ->
        exists p d,
          get name a this = Some (Some p, this) /\
          deref p this = Some (d, this) /\
          num_args d = a)) /\
    (forall p1 p2,
       get name a1 this = Some (Some p1, this) ->
       get name a2 this = Some (Some p2, this) ->
       p1 <> p2).
Proof.
  intros Hne.
  destruct (run_filter name a1 (fun r => key_of r = (name, a1)) calls
              (fun r H => H) this0 this0 eq_refl eq_refl)
    as (this & only & Hrun & Honly & Hop1 & Hfn1).
  destruct (run_filter name a1 (fun r => key_of r <> (name, a2)) calls)
    with (this := this0) (this' := this0)
    as (this_ & without & Hrun' & Hwithout & Hop2 & Hfn2); [|done|done|].
  { intros r -> [= ?]. done. }
  rewrite Hrun in Hrun'. injection Hrun' as <-.
  exists this, only, without. split; [done|]. split; [done|]. split; [done|].
  assert (Heqs :
    (fst <$> find_builtin Nop name a1 this = fst <$> find_builtin Nop name a1 only /\
     fst <$> find_callback name a1 this = fst <$> find_callback name a1 only /\
     fst <$> find_builtin Nop name a1 this = fst <$> find_builtin Nop name a1 without /\
     fst <$> find_callback name a1 this = fst <$> find_callback name a1 without)).
  { rewrite !find_builtin_entry, !find_callback_entry.
    rewrite Hop1, Hfn1, <- Hop2, <- Hfn2, Hop1, Hfn1. cbn.
    by destruct (CallbackContainer_copy _). }
  destruct Heqs as (? & ? & ? & ?).
  do 4 (split; [done|]). split.
  - intros a _. destruct (lookups_last calls name a this0 this Hrun) as [Hb Hc].
    split; [done|]. split; [done|]. intros Hreg.
    destruct (run_entry calls this0) as (this_ & Hrun' & Hiff).
    rewrite Hrun in Hrun'. injection Hrun' as <-.
    assert (Hsome : is_Some (entry name a this)) by (apply Hiff; by right).
    destruct (get_entry name a this) as ([p|] & Hget & Hptr).
    + destruct (get_deref name a this p Hget) as (d & Hd & Hn). eauto.
    + rewrite Hptr in Hsome. by apply is_Some_None in Hsome.
  - intros p1 p2 Hp1 Hp2 ->.
    destruct (get_deref _ _ _ _ Hp1) as (d1 & Hd1 & Hn1).
    destruct (get_deref _ _ _ _ Hp2) as (d2 & Hd2 & Hn2).
    congruence.
Qed.

End Properties.

Section PlacementProperties.

Variable Op : Type.
Variable Nop : Op.
Variable ValueCallbackFunction : Type.
Variable StreamingCallbackFunction : Type.
Variable reallocates : nat -> bool.

#[local] Abbreviation PData := (FunctionData Op address address).
#[local] Abbreviation PStore := (Store ValueCallbackFunction StreamingCallbackFunction).
#[local] Abbreviation PMemory := (Memory Op ValueCallbackFunction StreamingCallbackFunction).
#[local] Abbreviation PCall := (Registration Op ValueCallbackFunction StreamingCallbackFunction).
#[local] Abbreviation member d := (address_of (callback (function d))).

Implicit Types (s : PStore) (m : PMemory) (c : Placed) (d : PData) (vec : list PData).
Implicit Types (l : address) (name : string) (n : N) (i j : nat).

(** ** Objects that a step leaves alone *)

Lemma placed_consistent_frame s s' c :
  placed_consistent s c ->
  next s <= next s' ->
  (forall l, address_of (callback c) = Some l -> objects s' !! l = objects s !! l) ->
  placed_consistent s' c.
Proof.
  unfold placed_consistent, read_value, read_streaming.
  destruct c as [[] [|l|l]]; cbn; try done;
    intros [Hlt Hsome] Hnext Hsame; rewrite (Hsame l eq_refl); (split; [lia|done]).
Qed.

Lemma resolve_frame s s' c :
  (forall l, address_of (callback c) = Some l -> objects s' !! l = objects s !! l) ->
  resolve s' c = resolve s c.
Proof.
  unfold resolve, read_value, read_streaming.
  destruct c as [t [|l|l]]; cbn; intros Hsame; [done| |];
    by rewrite (Hsame l eq_refl).
Qed.

Lemma placed_consistent_lt s c l :
  placed_consistent s c -> address_of (callback c) = Some l -> l < next s.
Proof.
  unfold placed_consistent. destruct c as [[] [|l'|l']]; cbn; try done;
    by intros [Hlt _] [= <-].
Qed.

(** ** Relocation *)

Lemma placed_relocate_spec s c :
  placed_consistent s c ->
  exists c' s',
    placed_relocate c s = Some (c', s') /\
    type c' = type c /\
    placed_consistent s' c' /\
    resolve s' c' = resolve s c /\
    next s <= next s' /\
    (forall l, address_of (callback c') = Some l -> next s <= l) /\
    (forall l, l < next s -> address_of (callback c) <> Some l ->
               objects s' !! l = objects s !! l).
Proof.
  unfold placed_consistent, placed_relocate, resolve, read_value, read_streaming.
  destruct c as [[] [|l|l]]; cbn; try done.
  - intros [Hlt [f Hf]].
    destruct (objects s !! l) as [[f'|?]|] eqn:Hl; try done. cbn.
    eexists _, _. split; [reflexivity|]. cbn.
    assert (Hne : l <> next s) by lia.
    rewrite lookup_delete_ne, lookup_insert_eq by done.
    repeat split; try done; try lia.
    + by intros l' [= <-].
    + intros l' Hl' Hne'.
      rewrite lookup_delete_ne, lookup_insert_ne by (congruence || lia). done.
  - intros [Hlt [f Hf]].
    destruct (objects s !! l) as [[?|f']|] eqn:Hl; try done. cbn.
    eexists _, _. split; [reflexivity|]. cbn.
    assert (Hne : l <> next s) by lia.
    rewrite lookup_delete_ne, lookup_insert_eq by done.
    repeat split; try done; try lia.
    + by intros l' [= <-].
    + intros l' Hl' Hne'.
      rewrite lookup_delete_ne, lookup_insert_ne by (congruence || lia). done.
  - intros _. eexists _, _. split; [reflexivity|]. by repeat split.
Qed.

Lemma relocate_all_spec vec s :
  (forall i d, vec !! i = Some d -> placed_consistent s (function d)) ->
  (forall i j d d' l,
     vec !! i = Some d -> vec !! j = Some d' ->
     member d = Some l -> member d' = Some l -> i = j) ->
  exists vec' s',
    relocate_all vec s = Some (vec', s') /\
    next s <= next s' /\
    length vec' = length vec /\
    (forall i d d',
       vec !! i = Some d -> vec' !! i = Some d' ->
       num_args d' = num_args d /\ op d' = op d /\
       type (function d') = type (function d) /\
       resolve s' (function d') = resolve s (function d)) /\
    (forall i d', vec' !! i = Some d' -> placed_consistent s' (function d')) /\
    (forall i d' l, vec' !! i = Some d' -> member d' = Some l -> next s <= l) /\
    (forall i j d d' l,
       vec' !! i = Some d -> vec' !! j = Some d' ->
       member d = Some l -> member d' = Some l -> i = j) /\
    (forall l, l < next s ->
       (forall i d, vec !! i = Some d -> member d <> Some l) ->
       objects s' !! l = objects s !! l).
Proof.
  revert s. induction vec as [|d vec IH]; intros s Hcons Hdist.
  { exists [], s. cbn. repeat split; try done. }
  destruct (placed_relocate_spec s (function d) (Hcons 0 d eq_refl))
    as (c' & s1 & Hrel & Htype & Hcons1 & Hres1 & Hnext1 & Hnew1 & Hframe1).
  assert (Htail : forall i di, vec !! i = Some di ->
            forall l, member di = Some l ->
            l < next s /\ objects s1 !! l = objects s !! l).
  { intros i di Hdi l Hl.
    assert (Hlt : l < next s)
      by (eapply placed_consistent_lt; [apply (Hcons (S i) di Hdi)|done]).
    split; [done|]. apply Hframe1; [done|]. intros Hhead.
    by specialize (Hdist 0 (S i) d di l eq_refl Hdi Hhead Hl). }
  destruct (IH s1) as (vec' & s2 & Hall & Hnext2 & Hlen & Hsame & Hcons2 & Hnew2 & Hdist2 & Hframe2).
  { intros i di Hdi. eapply placed_consistent_frame; [apply (Hcons (S i) di Hdi)|done|].
    intros l Hl. by eapply Htail. }
  { intros i j di dj l Hdi Hdj Hli Hlj.
    by specialize (Hdist (S i) (S j) di dj l Hdi Hdj Hli Hlj) as [= ->]. }
  assert (Hhead : forall l, address_of (callback c') = Some l ->
            l < next s1 /\ next s <= l /\ objects s2 !! l = objects s1 !! l).
  { intros l Hl.
    assert (l < next s1) by by eapply placed_consistent_lt.
    assert (next s <= l) by by apply Hnew1.
    split; [done|]. split; [done|]. apply Hframe2; [done|].
    intros i di Hdi Hli. destruct (Htail i di Hdi l Hli) as [Hlt _]. lia. }
  exists ({| num_args := num_args d; op := op d; function := c' |} :: vec'), s2.
  cbn. rewrite Hrel. cbn. rewrite Hall. cbn.
  split; [done|]. split; [lia|]. split; [by rewrite Hlen|].
  split; [|split; [|split; [|split]]].
  - intros [|i] d0 d0'; cbn.
    + intros [= <-] [= <-]. cbn. repeat split; try done.
      rewrite <- Hres1. apply resolve_frame. intros l Hl. by apply Hhead.
    + intros Hd0 Hd0'. destruct (Hsame i d0 d0' Hd0 Hd0') as (? & ? & ? & Hres).
      repeat split; try done. rewrite Hres. apply resolve_frame.
      intros l Hl. by eapply Htail.
  - intros [|i] d0'; cbn.
    + intros [= <-]. cbn. eapply placed_consistent_frame; [done|done|].
      intros l Hl. by apply Hhead.
    + apply Hcons2.
  - intros [|i] d0' l; cbn.
    + intros [= <-]. cbn. apply Hnew1.
    + intros Hd0' Hl. specialize (Hnew2 i d0' l Hd0' Hl). lia.
  - intros [|i] [|j] d1 d2 l; cbn; try done.
    + intros [= <-] Hd2. cbn. intros Hl1 Hl2.
      destruct (Hhead l Hl1) as [Hlt _]. specialize (Hnew2 j d2 l Hd2 Hl2). lia.
    + intros Hd1 [= <-]. cbn. intros Hl1 Hl2.
      destruct (Hhead l Hl2) as [Hlt _]. specialize (Hnew2 i d1 l Hd1 Hl1). lia.
    + intros Hd1 Hd2 Hl1 Hl2. f_equal. by eapply Hdist2.
  - intros l Hlt Hnot. rewrite Hframe2.
    + apply Hframe1; [done|]. apply (Hnot 0 d eq_refl).
    + lia.
    + intros i di Hdi. apply (Hnot (S i) di Hdi).
Qed.

(** ** Replacing the vector of one name *)

Lemma member_at_lt m name i l :
  well_placed m -> member_at (registry m) name i l -> l < next (store m).
Proof.
  intros [Hvalid _] (vec & d & Hvec & Hd & Hl).
  eapply placed_consistent_lt; [by eapply Hvalid|done].
Qed.

(** Every step of a registration puts a vector [W] in the place of the
    vector of one name.  The memory stays well placed, and the objects
    that are no element's member stay as they are and no element's
    member, when: the step leaves alone what is not a member under that
    name, the elements of [W] are consistent, their members are where they
    were or in storage not used before, and no two are at one address. *)
Lemma well_placed_replace m name (W : list PData) s' :
  well_placed m ->
  next (store m) <= next s' ->
  (forall l, l < next (store m) ->
     (forall i, ~ member_at (registry m) name i l) ->
     objects s' !! l = objects (store m) !! l) ->
  (forall i d, W !! i = Some d -> placed_consistent s' (function d)) ->
  (forall i d l, W !! i = Some d -> member d = Some l ->
     member_at (registry m) name i l \/ next (store m) <= l) ->
  (forall i j d d' l,
     W !! i = Some d -> W !! j = Some d' ->
     member d = Some l -> member d' = Some l -> i = j) ->
  well_placed {| registry := {| m_map := <[name := W]> (m_map (registry m)) |};
                 store := s' |} /\
  (forall l, l < next (store m) ->
     (forall name' i, ~ member_at (registry m) name' i l) ->
     objects s' !! l = objects (store m) !! l /\
     forall name' i,
       ~ member_at {| m_map := <[name := W]> (m_map (registry m)) |} name' i l).
Proof.
  intros Hwp Hnext Hframe HW Haddr HWdist.
  pose proof Hwp as [Hvalid Hdist].
  split; [split|].
  - intros name' vec i d. cbn.
    destruct (decide (name' = name)) as [->|Hname].
    + rewrite lookup_insert_eq. intros [= <-]. apply HW.
    + rewrite lookup_insert_ne by done. intros Hvec Hd.
      eapply placed_consistent_frame; [by eapply Hvalid|done|].
      intros l Hl.
      assert (Hmem : member_at (registry m) name' i l) by by exists vec, d.
      apply Hframe; [by eapply member_at_lt|].
      intros i0 Hmem0. by destruct (Hdist name' i name i0 l Hmem Hmem0).
  - intros name1 i1 name2 i2 l (vec1 & d1 & Hv1 & Hd1 & Hl1) (vec2 & d2 & Hv2 & Hd2 & Hl2).
    cbn in Hv1, Hv2.
    destruct (decide (name1 = name)) as [->|Hn1], (decide (name2 = name)) as [->|Hn2].
    + rewrite lookup_insert_eq in Hv1, Hv2. simplify_eq. split; [done|].
      by eapply HWdist.
    + rewrite lookup_insert_eq in Hv1. rewrite lookup_insert_ne in Hv2 by done.
      simplify_eq.
      assert (Hmem2 : member_at (registry m) name2 i2 l) by by exists vec2, d2.
      destruct (Haddr i1 d1 l Hd1 Hl1) as [Hmem1|Hfresh].
      * by destruct (Hdist name i1 name2 i2 l Hmem1 Hmem2) as [<- _].
      * pose proof (member_at_lt m name2 i2 l Hwp Hmem2). lia.
    + rewrite lookup_insert_ne in Hv1 by done. rewrite lookup_insert_eq in Hv2.
      simplify_eq.
      assert (Hmem1 : member_at (registry m) name1 i1 l) by by exists vec1, d1.
      destruct (Haddr i2 d2 l Hd2 Hl2) as [Hmem2|Hfresh].
      * by destruct (Hdist name1 i1 name i2 l Hmem1 Hmem2) as [-> _].
      * pose proof (member_at_lt m name1 i1 l Hwp Hmem1). lia.
    + rewrite lookup_insert_ne in Hv1, Hv2 by done.
      apply (Hdist name1 i1 name2 i2 l); [by exists vec1, d1|by exists vec2, d2].
  - intros l Hlt Hnot. split.
    + apply Hframe; [done|]. intros i. apply Hnot.
    + intros name' i (vec & d & Hv & Hd & Hl). cbn in Hv.
      destruct (decide (name' = name)) as [->|Hname].
      * rewrite lookup_insert_eq in Hv. simplify_eq.
        destruct (Haddr i d l Hd Hl) as [Hmem|Hfresh]; [by eapply Hnot|lia].
      * rewrite lookup_insert_ne in Hv by done.
        eapply (Hnot name' i). by exists vec, d.
Qed.

(** ** Find-or-create in memory *)

Lemma find_num_args_ext vec vec' n :
  length vec' = length vec ->
  (forall i d d', vec !! i = Some d -> vec' !! i = Some d' -> num_args d' = num_args d) ->
  find_num_args vec' n = find_num_args vec n.
Proof.
  revert vec'. induction vec as [|d vec IH]; intros [|d' vec'] Hlen Hnum; try done.
  cbn. rewrite (Hnum 0 d d' eq_refl eq_refl).
  rewrite (IH vec'); [done|by injection Hlen|].
  intros i di di'. apply (Hnum (S i)).
Qed.

Lemma default_vector_lookup m name i d :
  default [] (m_map (registry m) !! name) !! i = Some d ->
  m_map (registry m) !! name = Some (default [] (m_map (registry m) !! name)).
Proof. by destruct (m_map (registry m) !! name). Qed.

(** [get_or_new] in memory returns a reference to an element with the
    number of arguments asked for.  The vector [V] it leaves under the
    name has the elements that were there, with their opcodes and the
    values of their callables, possibly at new addresses, followed by the
    new element if one was made.  Objects that are not members under that
    name are left as they are. *)
Lemma placed_get_or_new_spec name n m :
  well_placed m ->
  exists i V s1,
    placed_get_or_new Nop reallocates name n m =
      Some ((name, i),
            {| registry := {| m_map := <[name := V]> (m_map (registry m)) |};
               store := s1 |}) /\
    (exists d, V !! i = Some d /\ num_args d = n) /\
    well_placed {| registry := {| m_map := <[name := V]> (m_map (registry m)) |};
                   store := s1 |} /\
    next (store m) <= next s1 /\
    (forall l, l < next (store m) ->
       (forall name' i', ~ member_at (registry m) name' i' l) ->
       objects s1 !! l = objects (store m) !! l /\
       forall name' i',
         ~ member_at {| m_map := <[name := V]> (m_map (registry m)) |} name' i' l) /\
    (forall l, l < next (store m) ->
       (forall i', ~ member_at (registry m) name i' l) ->
       objects s1 !! l = objects (store m) !! l) /\
    (forall j d,
       default [] (m_map (registry m) !! name) !! j = Some d ->
       exists d',
         V !! j = Some d' /\ num_args d' = num_args d /\ op d' = op d /\
         resolve s1 (function d') = resolve (store m) (function d)) /\
    match find_num_args (default [] (m_map (registry m) !! name)) n with
    | Some i0 =>
        i = i0 /\ length V = length (default [] (m_map (registry m) !! name))
    | None =>
        i = length (default [] (m_map (registry m) !! name)) /\
        length V = S (length (default [] (m_map (registry m) !! name))) /\
        V !! i = Some (Build_FunctionData n Nop CallbackContainer_default)
    end.
Proof.
  intros Hwp. pose proof Hwp as [Hvalid Hdist].
  unfold placed_get_or_new, get_or_new. cbn zeta.
  pose proof (default_vector_lookup m name) as Hvec.
  set (vec := default [] (m_map (registry m) !! name)) in *.
  assert (Hmem : forall i d l, vec !! i = Some d -> member d = Some l ->
            member_at (registry m) name i l).
  { intros i d l Hd Hl. exists vec, d. split; [by eapply Hvec|done]. }
  assert (Hold : forall i j d d' l,
            vec !! i = Some d -> vec !! j = Some d' ->
            member d = Some l -> member d' = Some l -> i = j).
  { intros i j d d' l Hd Hd' Hl Hl'.
    by destruct (Hdist name i name j l (Hmem _ _ _ Hd Hl) (Hmem _ _ _ Hd' Hl')). }
  destruct (find_num_args vec n) as [i|] eqn:Hfind.
  - (* the element is there *)
    destruct (find_num_args_Some _ _ _ _ _ _ Hfind) as (d & Hd & Hn).
    exists i, vec, (store m). cbn. split; [done|]. split; [by exists d|].
    edestruct (well_placed_replace m name vec (store m)) as [Hwp' Hkeep]; try done.
    + intros i0 d0 Hd0. eapply Hvalid; [by eapply Hvec|done].
    + intros i0 d0 l Hd0 Hl. left. by eapply Hmem.
    + split; [done|]. split; [done|]. split; [done|]. split; [done|].
      split; [|done]. intros j d0 Hd0. by exists d0.
  - assert (Hnew : forall (W : list PData) s1,
        next (store m) <= next s1 ->
        (forall l, l < next (store m) ->
           (forall i, ~ member_at (registry m) name i l) ->
           objects s1 !! l = objects (store m) !! l) ->
        (forall i d, W !! i = Some d -> placed_consistent s1 (function d)) ->
        (forall i d l, W !! i = Some d -> member d = Some l ->
           member_at (registry m) name i l \/ next (store m) <= l) ->
        (forall i j d d' l,
           W !! i = Some d -> W !! j = Some d' ->
           member d = Some l -> member d' = Some l -> i = j) ->
        length W = length vec ->
        (forall j d, vec !! j = Some d ->
           exists d',
             W !! j = Some d' /\ num_args d' = num_args d /\ op d' = op d /\
             resolve s1 (function d') = resolve (store m) (function d)) ->
        let V := W ++ [Build_FunctionData n Nop CallbackContainer_default] in
        (exists d, V !! length W = Some d /\ num_args d = n) /\
        well_placed {| registry := {| m_map := <[name := V]> (m_map (registry m)) |};
                       store := s1 |} /\
        next (store m) <= next s1 /\
        (forall l, l < next (store m) ->
           (forall name' i', ~ member_at (registry m) name' i' l) ->
           objects s1 !! l = objects (store m) !! l /\
           forall name' i',
             ~ member_at {| m_map := <[name := V]> (m_map (registry m)) |} name' i' l) /\
        (forall l, l < next (store m) ->
           (forall i', ~ member_at (registry m) name i' l) ->
           objects s1 !! l = objects (store m) !! l) /\
        (forall j d, vec !! j = Some d ->
           exists d',
             V !! j = Some d' /\ num_args d' = num_args d /\ op d' = op d /\
             resolve s1 (function d') = resolve (store m) (function d)) /\
        length W = length vec /\
        length V = S (length vec) /\
        V !! length W = Some (Build_FunctionData n Nop CallbackContainer_default)).
    { intros W s1 Hnext Hframe HW Haddr HWdist Hlen Hcontent V.
      split; [eexists; split; [by apply list_lookup_middle|done]|].
      edestruct (well_placed_replace m name V s1) as [Hwp' Hkeep]; try done.
      + intros i d [[_ Hd]|[_ <-]]%lookup_snoc_Some; [by eapply HW|done].
      + intros i d l [[_ Hd]|[_ <-]]%lookup_snoc_Some Hl; [by eapply Haddr|done].
      + intros i j d d' l [[_ Hd]|[_ <-]]%lookup_snoc_Some
                          [[_ Hd']|[_ <-]]%lookup_snoc_Some; try done.
        by apply HWdist.
      + split; [done|]. split; [done|]. split; [done|]. split; [done|].
        split; [|split; [done|split]].
        * intros j d Hd. destruct (Hcontent j d Hd) as (d' & Hd' & ?).
          exists d'. split; [|done]. unfold V. rewrite lookup_app_l; [done|].
          by eapply lookup_lt_Some.
        * unfold V. rewrite length_app. cbn. lia.
        * by apply list_lookup_middle. }
    destruct (reallocates (length vec)).
    + (* the elements move to a new buffer first *)
      destruct (relocate_all_spec vec (store m))
        as (vec' & s1 & -> & Hnext & Hlen & Hsame & Hcons & Hfresh & Hdist' & Hframe).
      { intros i d Hd. eapply Hvalid; [by eapply Hvec|done]. }
      { done. }
      cbn. rewrite lookup_insert_eq. cbn.
      rewrite (find_num_args_ext vec vec'), Hfind; [|done|].
      2: { intros i d d' Hd Hd'. by destruct (Hsame i d d' Hd Hd'). }
      rewrite insert_insert_eq.
      exists (length vec'), (vec' ++ [Build_FunctionData n Nop CallbackContainer_default]), s1.
      split; [done|].
      destruct (Hnew vec' s1) as (? & ? & ? & ? & ? & ? & ? & ? & ?); try done.
      * intros l Hlt Hnot. apply Hframe; [done|].
        intros i d Hd Hl. by eapply Hnot, Hmem.
      * intros i d l Hd Hl. right. by eapply Hfresh.
      * intros j d Hd.
        destruct (lookup_lt_is_Some_2 vec' j) as [d' Hd'];
          [rewrite Hlen; by eapply lookup_lt_Some|].
        exists d'. split; [done|]. by destruct (Hsame j d d' Hd Hd') as (? & ? & ? & ?).
    + exists (length vec), (vec ++ [Build_FunctionData n Nop CallbackContainer_default]), (store m).
      split; [done|].
      destruct (Hnew vec (store m)) as (? & ? & ? & ? & ? & ? & ? & ? & ?); try done.
      * intros i d Hd. eapply Hvalid; [by eapply Hvec|done].
      * intros i d l Hd Hl. left. by eapply Hmem.
      * intros j d Hd. by exists d.
Qed.

(** ** Writing one element *)

(** The element at position [i] of the vector of [name] is replaced by
    [d'], whose member is where the member of the old element was or in
    storage not used before; the step changes no other object that was
    there. *)
Lemma well_placed_insert m name V i d d' s' :
  well_placed m ->
  m_map (registry m) !! name = Some V ->
  V !! i = Some d ->
  next (store m) <= next s' ->
  (forall l, l < next (store m) -> member d <> Some l ->
     objects s' !! l = objects (store m) !! l) ->
  placed_consistent s' (function d') ->
  (forall l, member d' = Some l -> member d = Some l \/ next (store m) <= l) ->
  well_placed {| registry := {| m_map := <[name := <[i := d']> V]> (m_map (registry m)) |};
                 store := s' |} /\
  (forall l, l < next (store m) ->
     (forall name' i', ~ member_at (registry m) name' i' l) ->
     objects s' !! l = objects (store m) !! l /\
     forall name' i',
       ~ member_at {| m_map := <[name := <[i := d']> V]> (m_map (registry m)) |}
           name' i' l).
Proof.
  intros Hwp HV Hd Hnext Hframe Hd' Haddr.
  pose proof Hwp as [Hvalid Hdist].
  assert (Hmem : forall j dj l, V !! j = Some dj -> member dj = Some l ->
            member_at (registry m) name j l) by (intros; by exists V, dj).
  assert (Hother : forall j dj l, j <> i -> V !! j = Some dj -> member dj = Some l ->
            l < next (store m) /\ member d <> Some l).
  { intros j dj l Hji Hdj Hl. split; [by eapply member_at_lt, Hmem|].
    intros Hl'. by destruct (Hdist name j name i l (Hmem _ _ _ Hdj Hl) (Hmem _ _ _ Hd Hl')). }
  apply well_placed_replace; try done.
  - intros l Hlt Hnot. apply Hframe; [done|]. intros Hl. by eapply (Hnot i), Hmem.
  - intros j dj [(-> & <- & _)|[Hji Hdj]]%list_lookup_insert_Some; [done|].
    eapply placed_consistent_frame; [by eapply Hvalid|done|].
    intros l Hl. destruct (Hother j dj l) as [Hlt Hne]; try done. by apply Hframe.
  - intros j dj l [(-> & <- & _)|[Hji Hdj]]%list_lookup_insert_Some Hl.
    + destruct (Haddr l Hl) as [Hold|Hfresh]; [left; by eapply Hmem|by right].
    + left. by eapply Hmem.
  - intros j k dj dk l [(-> & <- & _)|[Hji Hdj]]%list_lookup_insert_Some
                        [(-> & <- & _)|[Hki Hdk]]%list_lookup_insert_Some Hlj Hlk;
      try done.
    + destruct (Haddr l Hlj) as [Hold|Hfresh].
      * by destruct (Hother k dk l).
      * destruct (Hother k dk l) as [Hlt _]; try done. lia.
    + destruct (Haddr l Hlk) as [Hold|Hfresh].
      * by destruct (Hother j dj l).
      * destruct (Hother j dj l) as [Hlt _]; try done. lia.
    + by destruct (Hdist name j name k l (Hmem _ _ _ Hdj Hlj) (Hmem _ _ _ Hdk Hlk)).
Qed.

(** The temporary of [data.function = function]: built in storage of its
    own, copied into the storage of the target's union, and destroyed. *)
Lemma assign_temporary (construct : PStore -> Placed * PStore) (this : Placed) s :
  (exists f, construct = placed_value f) \/ (exists g, construct = placed_streaming g) ->
  placed_consistent s this ->
  exists tmp s1 c s2 s3,
    construct s = (tmp, s1) /\
    placed_assign_move this tmp s1 = Some (c, s2) /\
    placed_destroy tmp s2 = Some s3 /\
    placed_consistent s3 c /\
    next s <= next s3 /\
    (forall l, address_of (callback c) = Some l ->
       address_of (callback this) = Some l \/ next s <= l) /\
    (forall l, l < next s -> address_of (callback this) <> Some l ->
       objects s3 !! l = objects s !! l) /\
    resolve s3 c = resolve s1 tmp.
Proof.
  unfold placed_consistent, placed_assign_move, placed_destroy, placed_value,
    placed_streaming, union_storage, new_address, construct_at, release,
    resolve, read_value, read_streaming.
  intros [[f ->]|[g ->]] Hthis;
    destruct this as [[] [|l0|l0]]; cbn in *; try done;
    try (match type of Hthis with _ /\ _ => destruct Hthis as [Hlt _] end);
    repeat (first [ rewrite lookup_insert_eq | rewrite lookup_insert_ne by lia ]; cbn);
    eexists _, _, _, _, _;
    (split; [reflexivity|]); cbn;
    repeat (first [ rewrite lookup_insert_eq | rewrite lookup_insert_ne by lia ]; cbn);
    (split; [reflexivity|]); cbn;
    repeat (first [ rewrite lookup_insert_eq | rewrite lookup_insert_ne by lia ]; cbn);
    (split; [reflexivity|]); cbn;
    repeat (first [ rewrite lookup_delete_ne by lia | rewrite lookup_insert_eq
                  | rewrite lookup_insert_ne by lia ]; cbn);
    (split; [split; [lia|eauto]|]);
    (split; [lia|]);
    (split; [intros l [= <-]; (by left) || (right; lia)|]);
    (split; [intros l Hl Hne;
             rewrite lookup_delete_ne by lia;
             rewrite !lookup_insert_ne by (lia || congruence); done|]);
    repeat (first [ rewrite lookup_delete_ne by lia | rewrite lookup_insert_eq
                  | rewrite lookup_insert_ne by lia ]; cbn);
    done.
Qed.

(** ** One registration in memory *)

(** What a step guarantees: it returns, the memory stays well placed, and
    an object that was there and was no element's member is as it was and
    still no element's member. *)
#[local] Abbreviation step_keeps m m' :=
  (well_placed m' /\
   next (store m) <= next (store m') /\
   forall l, l < next (store m) ->
     (forall name i, ~ member_at (registry m) name i l) ->
     objects (store m') !! l = objects (store m) !! l /\
     forall name i, ~ member_at (registry m') name i l).

Lemma placed_add_builtin_step name n o m :
  well_placed m ->
  exists m', placed_add_builtin Nop reallocates name n o m = Some (tt, m') /\
             step_keeps m m'.
Proof.
  intros Hwp. unfold placed_add_builtin.
  destruct (placed_get_or_new_spec name n m Hwp)
    as (i & V & s1 & -> & (d & Hd & Hn) & Hwp1 & Hnext1 & Hkeep1 & _).
  cbn. unfold update. cbn. rewrite lookup_insert_eq. cbn. rewrite Hd. cbn.
  eexists. split; [reflexivity|].
  edestruct (well_placed_insert _ name V i d
               {| num_args := num_args d; op := o; function := function d |}
               s1 Hwp1) as [Hwp2 Hkeep2]; try done.
  { cbn. by rewrite lookup_insert_eq. }
  { destruct Hwp1 as [Hvalid1 _]. eapply (Hvalid1 name V i d); [|done].
    cbn. by rewrite lookup_insert_eq. }
  { intros l Hl. by left. }
  cbn in *. split; [done|]. split; [done|].
  intros l Hlt Hnot. destruct (Hkeep1 l Hlt Hnot) as [Hsame1 Hnot1].
  destruct (Hkeep2 l) as [Hsame2 Hnot2]; [lia|done|]. done.
Qed.

Lemma placed_add_callback_step name n (construct : PStore -> Placed * PStore) m :
  (exists f, construct = placed_value f) \/ (exists g, construct = placed_streaming g) ->
  well_placed m ->
  exists m', placed_add_callback Nop reallocates name n construct m = Some (tt, m') /\
             step_keeps m m'.
Proof.
  intros Hconstruct Hwp. unfold placed_add_callback.
  destruct (placed_get_or_new_spec name n m Hwp)
    as (i & V & s1 & -> & (d & Hd & Hn) & Hwp1 & Hnext1 & Hkeep1 & _).
  cbn. unfold deref. cbn. rewrite lookup_insert_eq. cbn. rewrite Hd. cbn.
  assert (Hcons : placed_consistent s1 (function d)).
  { destruct Hwp1 as [Hvalid1 _]. eapply (Hvalid1 name V i d); [|done].
    cbn. by rewrite lookup_insert_eq. }
  destruct (assign_temporary construct (function d) s1 Hconstruct Hcons)
    as (tmp & s1' & c & s2 & s3 & -> & -> & Hdestroy & Hc & Hnext3 & Haddr & Hframe & _).
  cbn. rewrite Hdestroy. cbn.
  unfold update. cbn. rewrite lookup_insert_eq. cbn. rewrite Hd. cbn.
  eexists. split; [reflexivity|].
  edestruct (well_placed_insert _ name V i d
               {| num_args := num_args d; op := op d; function := c |}
               s3 Hwp1) as [Hwp2 Hkeep2]; try done.
  { cbn. by rewrite lookup_insert_eq. }
  cbn in *. split; [done|]. split; [lia|].
  intros l Hlt Hnot. destruct (Hkeep1 l Hlt Hnot) as [Hsame1 Hnot1].
  destruct (Hkeep2 l) as [Hsame2 Hnot2]; [lia|done|]. split; [congruence|done].
Qed.

Lemma placed_register_step (r : PCall) m :
  well_placed m ->
  exists m', placed_register Nop reallocates r m = Some (tt, m') /\ step_keeps m m'.
Proof.
  destruct r as [name n o|name n f|name n g]; cbn [placed_register].
  - apply placed_add_builtin_step.
  - apply placed_add_callback_step. left. by exists f.
  - apply placed_add_callback_step. right. by exists g.
Qed.

Lemma placed_run_keeps (calls : list PCall) m :
  well_placed m ->
  exists m', placed_run Nop reallocates calls m = Some (tt, m') /\ step_keeps m m'.
Proof.
  revert m. induction calls as [|r calls IH]; intros m Hwp.
  { exists m. split; [done|]. split; [done|]. split; [lia|]. by intros l Hlt Hnot. }
  destruct (placed_register_step r m Hwp) as (m1 & Hreg & Hwp1 & Hnext1 & Hkeep1).
  destruct (IH m1 Hwp1) as (m' & Hrun & Hwp' & Hnext' & Hkeep').
  exists m'. cbn. rewrite Hreg. cbn. split; [done|]. split; [done|]. split; [lia|].
  intros l Hlt Hnot. destruct (Hkeep1 l Hlt Hnot) as [Hsame1 Hnot1].
  destruct (Hkeep' l) as [Hsame' Hnot']; [lia|done|]. split; [congruence|done].
Qed.

Lemma well_placed_default :
  well_placed (@Memory_default Op ValueCallbackFunction StreamingCallbackFunction).
Proof.
  split.
  - intros name vec i d. cbn. by rewrite lookup_empty.
  - intros name i name' i' l (vec & d & Hvec & _). cbn in Hvec.
    by rewrite lookup_empty in Hvec.
Qed.

(** ** The lookup in memory *)

Lemma resolve_consistent s c :
  placed_consistent s c -> is_Some (resolve s c).
Proof.
  unfold placed_consistent, resolve.
  destruct c as [[] [|l|l]]; cbn; try done; by intros [_ [f ->]].
Qed.

(** The copy constructor builds its member in storage not used before and
    leaves the objects that were there as they are. *)
Lemma placed_copy_spec s c :
  placed_consistent s c ->
  exists c' s',
    placed_copy c s = Some (c', s') /\
    placed_consistent s' c' /\
    resolve s' c' = resolve s c /\
    next s <= next s' /\
    (forall l, l < next s -> objects s' !! l = objects s !! l) /\
    (forall l, address_of (callback c') = Some l -> next s <= l).
Proof.
  unfold placed_consistent, placed_copy, resolve, read_value, read_streaming.
  destruct c as [[] [|l|l]]; cbn; try done.
  - intros [Hlt [f Hf]].
    destruct (objects s !! l) as [[f'|?]|] eqn:Hl; try done. cbn.
    eexists _, _. split; [reflexivity|]. cbn. rewrite lookup_insert_eq.
    repeat split; try done; try lia; [eauto|..].
    + intros l' Hl'. by rewrite lookup_insert_ne by lia.
    + by intros l' [= <-].
  - intros [Hlt [f Hf]].
    destruct (objects s !! l) as [[?|f']|] eqn:Hl; try done. cbn.
    eexists _, _. split; [reflexivity|]. cbn. rewrite lookup_insert_eq.
    repeat split; try done; try lia; [eauto|..].
    + intros l' Hl'. by rewrite lookup_insert_ne by lia.
    + by intros l' [= <-].
  - intros _. eexists _, _. split; [reflexivity|]. by repeat split.
Qed.

(** What is stored under a key, as a container of values. *)
#[local] Abbreviation stored_value name n m :=
  (match entry name n (registry m) with
   | Some d => resolve (store m) (function d)
   | None => Some CallbackContainer_default
   end).

Lemma placed_find_callback_spec name n m :
  well_placed m ->
  exists c s1,
    placed_find_callback name n m = Some (c, {| registry := registry m; store := s1 |}) /\
    well_placed {| registry := registry m; store := s1 |} /\
    placed_consistent s1 c /\
    resolve s1 c = stored_value name n m /\
    next (store m) <= next s1 /\
    (forall l, address_of (callback c) = Some l -> next (store m) <= l) /\
    (forall l, l < next (store m) -> objects s1 !! l = objects (store m) !! l).
Proof.
  intros Hwp. pose proof Hwp as [Hvalid Hdist].
  assert (Hsame : forall s1,
            next (store m) <= next s1 ->
            (forall l, l < next (store m) -> objects s1 !! l = objects (store m) !! l) ->
            well_placed {| registry := registry m; store := s1 |}).
  { intros s1 Hnext Hframe. split; [|done].
    intros name' vec i d Hvec Hd. cbn in *.
    eapply placed_consistent_frame; [by eapply Hvalid|done|].
    intros l Hl. apply Hframe. eapply placed_consistent_lt; [by eapply Hvalid|done]. }
  unfold placed_find_callback, get, deref, entry.
  destruct (m_map (registry m) !! name) as [vec|] eqn:Hvec; cbn.
  2: { exists CallbackContainer_default, (store m). destruct m as [reg s]. cbn.
       split; [done|]. split; [done|]. split; [done|]. split; [done|].
       split; [lia|]. split; done. }
  destruct (find_num_args vec n) as [i|] eqn:Hfind; cbn.
  2: { exists CallbackContainer_default, (store m). destruct m as [reg s]. cbn.
       split; [done|]. split; [done|]. split; [done|]. split; [done|].
       split; [lia|]. split; done. }
  destruct (find_num_args_Some _ _ _ _ _ _ Hfind) as (d & Hd & Hn).
  rewrite Hvec. cbn. rewrite Hd. cbn.
  destruct (placed_copy_spec (store m) (function d))
    as (c & s1 & -> & Hc & Hres & Hnext & Hframe & Hfresh); [by eapply Hvalid|].
  cbn. exists c, s1. split; [done|]. split; [by apply Hsame|]. done.
Qed.

(** ** The registry in memory and the registry of values *)

#[local] Abbreviation VData :=
  (FunctionData Op ValueCallbackFunction StreamingCallbackFunction).
#[local] Abbreviation VStorage :=
  (FunctionStorage Op ValueCallbackFunction StreamingCallbackFunction).

Implicit Types (this : VStorage) (dv : VData) (vv : list VData).

Lemma find_num_args_stands_for s vec vv n :
  Forall2 (stands_for s) vec vv -> find_num_args vec n = find_num_args vv n.
Proof.
  induction 1 as [|d dv vec vv [Hn _] _ IH]; [done|].
  cbn. by rewrite Hn, IH.
Qed.

Lemma stands_for_frame s s' d dv :
  stands_for s d dv ->
  (forall l, member d = Some l -> objects s' !! l = objects s !! l) ->
  stands_for s' d dv.
Proof.
  intros (Hn & Hop & Hres) Hsame. split; [done|]. split; [done|].
  by rewrite (resolve_frame s s').
Qed.

Lemma represents_default :
  represents (@Memory_default Op ValueCallbackFunction StreamingCallbackFunction)
             FunctionStorage_default.
Proof. intros name. cbn. rewrite !lookup_empty. cbn. constructor. Qed.

(** [get_or_new] in memory and on values return the same reference, and
    leave registries of which the first stands for the second. *)
Lemma placed_get_or_new_represents name n m this :
  well_placed m -> represents m this ->
  exists i V s1 vv d dv,
    placed_get_or_new Nop reallocates name n m =
      Some ((name, i),
            {| registry := {| m_map := <[name := V]> (m_map (registry m)) |};
               store := s1 |}) /\
    get_or_new Nop name n this =
      Some ((name, i), {| m_map := <[name := vv]> (m_map this) |}) /\
    V !! i = Some d /\ vv !! i = Some dv /\
    well_placed {| registry := {| m_map := <[name := V]> (m_map (registry m)) |};
                   store := s1 |} /\
    represents {| registry := {| m_map := <[name := V]> (m_map (registry m)) |};
                  store := s1 |}
               {| m_map := <[name := vv]> (m_map this) |}.
Proof.
  intros Hwp Hrep.
  destruct (placed_get_or_new_spec name n m Hwp)
    as (i & V & s1 & Hget & (d & Hd & Hn) & Hwp1 & Hnext1 & _ & Hframe & Hcontent & Hindex).
  pose proof (Hrep name) as Hname.
  rewrite (find_num_args_stands_for _ _ _ n Hname) in Hindex.
  pose proof (Forall2_length _ _ _ Hname) as Hlen.
  assert (Hothers : forall name', name' <> name ->
            Forall2 (stands_for s1)
              (default [] (m_map (registry m) !! name'))
              (default [] (m_map this !! name'))).
  { intros name' Hne. apply Forall2_same_length_lookup.
    split; [by eapply Forall2_length|]. intros j x y Hx Hy.
    eapply stands_for_frame; [by eapply (Forall2_lookup_lr _ _ _ _ _ _ (Hrep name'))|].
    intros l Hl.
    assert (Hmem : member_at (registry m) name' j l).
    { eexists _, x. split; [by eapply default_vector_lookup|done]. }
    apply Hframe; [by eapply member_at_lt|].
    intros i' Hmem'. destruct Hwp as [_ Hdist].
    by destruct (Hdist name' j name i' l Hmem Hmem'). }
  assert (Hold : forall j x y,
            V !! j = Some x -> default [] (m_map this !! name) !! j = Some y ->
            stands_for s1 x y).
  { intros j x y Hx Hy.
    destruct (lookup_lt_is_Some_2 (default [] (m_map (registry m) !! name)) j)
      as [dp Hdp]; [rewrite Hlen; by eapply lookup_lt_Some|].
    destruct (Hcontent j dp Hdp) as (d' & Hd' & Hnum & Hop & Hres).
    assert (d' = x) as -> by congruence.
    destruct (Forall2_lookup_lr _ _ _ _ _ _ Hname Hdp Hy) as (Hn' & Hop' & Hres').
    split; [congruence|]. split; congruence. }
  unfold get_or_new. cbn zeta.
  destruct (find_num_args (default [] (m_map this !! name)) n) as [i0|] eqn:Hfind.
  - destruct Hindex as [-> HlenV].
    destruct (find_num_args_Some _ _ _ _ _ _ Hfind) as (dv & Hdv & _).
    exists i0, V, s1, (default [] (m_map this !! name)), d, dv.
    split; [done|]. split; [done|]. split; [done|]. split; [done|]. split; [done|].
    intros name'. cbn. destruct (decide (name' = name)) as [->|Hne].
    + rewrite !lookup_insert_eq. cbn. apply Forall2_same_length_lookup.
      split; [congruence|done].
    + rewrite !lookup_insert_ne by done. by apply Hothers.
  - destruct Hindex as (-> & HlenV & Hfresh).
    eexists _, V, s1, _, d, _.
    split; [done|]. rewrite Hlen. split; [reflexivity|]. split; [by rewrite <- Hlen|].
    split; [by apply list_lookup_middle|]. split; [done|].
    intros name'. cbn. destruct (decide (name' = name)) as [->|Hne].
    + rewrite !lookup_insert_eq. cbn. apply Forall2_same_length_lookup.
      split; [rewrite length_app; cbn; lia|].
      intros j x y Hx [[_ Hy]|[-> <-]]%lookup_snoc_Some; [by eapply Hold|].
      rewrite <- Hlen, Hfresh in Hx. injection Hx as <-. by split.
    + rewrite !lookup_insert_ne by done. by apply Hothers.
Qed.

(** Writing the element at one position on both sides keeps the first
    registry standing for the second, when the written elements match and
    the step left the other elements' members as they were. *)
Lemma represents_insert m this name V vv i d d' dv' s' :
  well_placed m -> represents m this ->
  m_map (registry m) !! name = Some V ->
  m_map this !! name = Some vv ->
  V !! i = Some d ->
  (forall l, l < next (store m) -> member d <> Some l ->
     objects s' !! l = objects (store m) !! l) ->
  stands_for s' d' dv' ->
  represents
    {| registry := {| m_map := <[name := <[i := d']> V]> (m_map (registry m)) |};
       store := s' |}
    {| m_map := <[name := <[i := dv']> vv]> (m_map this) |}.
Proof.
  intros Hwp Hrep HV Hvv Hd Hframe Hnew.
  assert (Hkept : forall name' j x y,
            (name', j) <> (name, i) ->
            default [] (m_map (registry m) !! name') !! j = Some x ->
            default [] (m_map this !! name') !! j = Some y ->
            stands_for s' x y).
  { intros name' j x y Hne Hx Hy.
    eapply stands_for_frame; [by eapply (Forall2_lookup_lr _ _ _ _ _ _ (Hrep name'))|].
    intros l Hl.
    assert (Hmem : member_at (registry m) name' j l).
    { eexists _, x. split; [by eapply default_vector_lookup|done]. }
    apply Hframe; [by eapply member_at_lt|].
    intros Hl'. destruct Hwp as [_ Hdist].
    destruct (Hdist name' j name i l Hmem) as [-> ->]; [by exists V, d|done]. }
  intros name'. cbn. destruct (decide (name' = name)) as [->|Hne].
  - rewrite !lookup_insert_eq. cbn. apply Forall2_same_length_lookup.
    pose proof (Forall2_length _ _ _ (Hrep name)) as Hlen.
    rewrite HV, Hvv in Hlen. cbn in Hlen.
    split; [by rewrite !length_insert|].
    intros j x y [(-> & <- & _)|[Hji Hx]]%list_lookup_insert_Some
                 [(? & <- & _)|[? Hy]]%list_lookup_insert_Some; try done.
    apply (Hkept name j); [congruence|by rewrite HV|by rewrite Hvv].
  - rewrite !lookup_insert_ne by done. apply Forall2_same_length_lookup.
    split; [by eapply Forall2_length|].
    intros j x y. apply Hkept. congruence.
Qed.

(** [add_builtin] in memory and on values. *)
Lemma placed_add_builtin_represents name n o m this :
  well_placed m -> represents m this ->
  exists m' this',
    placed_add_builtin Nop reallocates name n o m = Some (tt, m') /\
    add_builtin Nop name n o this = Some (tt, this') /\
    represents m' this'.
Proof.
  intros Hwp Hrep. unfold placed_add_builtin, add_builtin, bind.
  destruct (placed_get_or_new_represents name n m this Hwp Hrep)
    as (i & V & s1 & vv & d & dv & -> & -> & Hd & Hdv & Hwp1 & Hrep1).
  assert (Hddv : stands_for s1 d dv).
  { pose proof (Hrep1 name) as Hname. cbn in Hname.
    rewrite !lookup_insert_eq in Hname. cbn in Hname.
    by eapply Forall2_lookup_lr. }
  cbn. unfold update. cbn. rewrite !lookup_insert_eq. cbn. rewrite Hd, Hdv. cbn.
  eexists _, _. split; [reflexivity|]. split; [reflexivity|].
  pose proof (represents_insert
             {| registry := {| m_map := <[name := V]> (m_map (registry m)) |};
                store := s1 |}
             {| m_map := <[name := vv]> (m_map this) |} name V vv i d
             {| num_args := num_args d; op := o; function := function d |}
             {| num_args := num_args dv; op := o; function := function dv |}
             s1 Hwp1 Hrep1) as Hins.
  cbn in Hins. apply Hins; try done.
  - by rewrite lookup_insert_eq.
  - by rewrite lookup_insert_eq.
  - by destruct Hddv as (? & ? & ?).
Qed.

(** [add_callback] in memory, with the converting constructor [construct]
    of its argument, and the write on values of the container [cv] that
    the constructed temporary reads as. *)
Lemma placed_add_callback_represents name n
    (construct : PStore -> Placed * PStore)
    (cv : CallbackContainer ValueCallbackFunction StreamingCallbackFunction) m this :
  (exists f, construct = placed_value f) \/ (exists g, construct = placed_streaming g) ->
  (forall s tmp s1, construct s = (tmp, s1) -> resolve s1 tmp = Some cv) ->
  well_placed m -> represents m this ->
  exists m' this',
    placed_add_callback Nop reallocates name n construct m = Some (tt, m') /\
    bind (get_or_new Nop name n)
      (fun data => update data (fun x =>
         Some {| num_args := num_args x; op := op x; function := cv |})) this =
      Some (tt, this') /\
    represents m' this'.
Proof.
  intros Hconstruct Hcv Hwp Hrep. unfold placed_add_callback, bind.
  destruct (placed_get_or_new_represents name n m this Hwp Hrep)
    as (i & V & s1 & vv & d & dv & -> & -> & Hd & Hdv & Hwp1 & Hrep1).
  assert (Hddv : stands_for s1 d dv).
  { pose proof (Hrep1 name) as Hname. cbn in Hname.
    rewrite !lookup_insert_eq in Hname. cbn in Hname.
    by eapply Forall2_lookup_lr. }
  cbn. unfold deref. cbn. rewrite lookup_insert_eq. cbn. rewrite Hd. cbn.
  assert (Hcons : placed_consistent s1 (function d)).
  { destruct Hwp1 as [Hvalid1 _]. eapply (Hvalid1 name V i d); [|done].
    cbn. by rewrite lookup_insert_eq. }
  destruct (assign_temporary construct (function d) s1 Hconstruct Hcons)
    as (tmp & s1' & c & s2 & s3 & Htmp & Hassign & Hdestroy & Hc & Hnext3 & Haddr & Hframe & Hres).
  rewrite Htmp, Hassign. cbn. rewrite Hdestroy. cbn.
  unfold update. cbn. rewrite !lookup_insert_eq. cbn. rewrite Hd, Hdv. cbn.
  eexists _, _. split; [reflexivity|]. split; [reflexivity|].
  pose proof (represents_insert
             {| registry := {| m_map := <[name := V]> (m_map (registry m)) |};
                store := s1 |}
             {| m_map := <[name := vv]> (m_map this) |} name V vv i d
             {| num_args := num_args d; op := op d; function := c |}
             {| num_args := num_args dv; op := op dv; function := cv |}
             s3 Hwp1 Hrep1) as Hins.
  cbn in Hins. apply Hins; try done.
  - by rewrite lookup_insert_eq.
  - by rewrite lookup_insert_eq.
  - destruct Hddv as (? & ? & ?). split; [done|]. split; [done|]. cbn.
    rewrite Hres. by eapply Hcv.
Qed.

(** One registration in memory and the same registration on values. *)
Lemma placed_register_represents (r : PCall) m this :
  well_placed m -> represents m this ->
  exists m' this',
    placed_register Nop reallocates r m = Some (tt, m') /\
    register Nop r this = Some (tt, this') /\
    represents m' this'.
Proof.
  intros Hwp Hrep. destruct r as [name n o|name n f|name n g]; cbn [placed_register register].
  - by apply placed_add_builtin_represents.
  - apply (placed_add_callback_represents name n (placed_value f)
             (CallbackContainer_value f)); try done.
    + left. by exists f.
    + intros s tmp s1 [= <- <-]. unfold resolve, read_value. cbn.
      by rewrite lookup_insert_eq.
  - apply (placed_add_callback_represents name n (placed_streaming g)
             (CallbackContainer_streaming g)); try done.
    + right. by exists g.
    + intros s tmp s1 [= <- <-]. unfold resolve, read_streaming. cbn.
      by rewrite lookup_insert_eq.
Qed.

(** A sequence of registrations in memory and the same sequence on values. *)
Lemma placed_run_represents (calls : list PCall) m this :
  well_placed m -> represents m this ->
  exists m' this',
    placed_run Nop reallocates calls m = Some (tt, m') /\
    run Nop calls this = Some (tt, this') /\
    well_placed m' /\
    represents m' this'.
Proof.
  revert m this. induction calls as [|r calls IH]; intros m this Hwp Hrep.
  { by exists m, this. }
  destruct (placed_register_represents r m this Hwp Hrep) as (m1 & this1 & Hreg & Hreg' & Hrep1).
  destruct (placed_register_step r m Hwp) as (m1' & Hreg1 & Hwp1 & _).
  assert (m1' = m1) as -> by congruence.
  destruct (IH m1 this1 Hwp1 Hrep1) as (m' & this' & Hrun & Hrun' & Hwp' & Hrep').
  exists m', this'. cbn. unfold bind. rewrite Hreg, Hreg'. cbn. done.
Qed.

(** The element a key reaches in memory reads as the callable the key
    reaches in the registry of values. *)
Lemma represents_stored_value name n m this :
  represents m this ->
  stored_value name n m =
    Some (from_option function CallbackContainer_default (entry name n this)).
Proof.
  intros Hrep. rewrite !entry_unfold. cbn zeta.
  pose proof (Hrep name) as Hname.
  rewrite (find_num_args_stands_for _ _ _ n Hname).
  destruct (find_num_args (default [] (m_map this !! name)) n) as [i|] eqn:Hfind; cbn;
    [|done].
  destruct (find_num_args_Some _ _ _ _ _ _ Hfind) as (dv & Hdv & _).
  destruct (Forall2_lookup_r _ _ _ _ _ Hname Hdv) as (d & Hd & _ & _ & Hres).
  by rewrite Hd, Hdv.
Qed.

(** ** Copy independence *)

(** Objects that were there being as they were, the registry in memory
    stands for the registry of values it stood for. *)
Lemma represents_frame m this s' :
  well_placed m -> represents m this ->
  (forall l, l < next (store m) -> objects s' !! l = objects (store m) !! l) ->
  represents {| registry := registry m; store := s' |} this.
Proof.
  intros Hwp Hrep Hframe name. cbn. apply Forall2_same_length_lookup.
  split; [by eapply Forall2_length|]. intros j x y Hx Hy.
  eapply stands_for_frame; [by eapply (Forall2_lookup_lr _ _ _ _ _ _ (Hrep name))|].
  intros l Hl. apply Hframe. eapply (member_at_lt m name j); [done|].
  eexists _, x. split; [by eapply default_vector_lookup|done].
Qed.

(** On a registry reached by registrations, a lookup on values returns the
    callable the key reaches. *)
Lemma find_callback_stored calls this0 this name n :
  storage_consistent this0 ->
  run Nop calls this0 = Some (tt, this) ->
  storage_consistent this /\
  find_callback name n this =
    Some (from_option function CallbackContainer_default (entry name n this), this).
Proof.
  intros Hcons0 Hrun.
  destruct (run_frame _ Nop _ _ calls this0) as (this' & Hrun' & _ & _ & _ & Hcons).
  assert (this' = this) as -> by congruence.
  split; [by apply Hcons|].
  rewrite find_callback_entry, CallbackContainer_copy_consistent; [done|].
  by apply stored_function_consistent, Hcons.
Qed.

(** C9. The container [find_callback] returns is an independent copy of
    the stored callable.  With the [std::function] objects placed in
    memory, for every sequence of registrations before the lookup and
    every sequence after it, and whenever the vectors reallocate: the
    lookup returns and leaves the registry as it is; the returned
    container, read through its member, is the callable stored under the
    key at the time of the lookup, which is the container the lookup
    returns on the registry of values after the same registrations; its
    member is an object of its own, which no element of the registry has
    as its member, at the lookup or after the later registrations; after
    them every key of the registry reads as it does on the registry of
    values after all the registrations, while the returned container
    still reads as it did, whether or not they overwrote the element it
    was copied from. *)
Theorem copy_independence (before after : list PCall) name n :
  exists this this2 m0 c m1 m2 held,
    run Nop before FunctionStorage_default = Some (tt, this) /\
    find_callback name n this = Some (held, this) /\
    run Nop after this = Some (tt, this2) /\
    placed_run Nop reallocates before Memory_default = Some (tt, m0) /\
    placed_find_callback name n m0 = Some (c, m1) /\
    placed_run Nop reallocates after m1 = Some (tt, m2) /\
    registry m1 = registry m0 /\
    stored_value name n m0 = Some held /\
    resolve (store m1) c = Some held /\
    resolve (store m2) c = Some held /\
    (forall l, address_of (callback c) = Some l ->
       (forall name' i, ~ member_at (registry m1) name' i l) /\
       (forall name' i, ~ member_at (registry m2) name' i l)) /\
    (forall name' n',
       exists held2, find_callback name' n' this2 = Some (held2, this2) /\
                     stored_value name' n' m2 = Some held2).
Proof.
  destruct (placed_run_represents before Memory_default FunctionStorage_default
              well_placed_default represents_default)
    as (m0 & this & Hbefore & Hrun & Hwp0 & Hrep0).
  destruct (find_callback_stored before FunctionStorage_default this name n)
    as [Hcons Hfindv]; [apply storage_consistent_default|done|].
  destruct (placed_find_callback_spec name n m0 Hwp0)
    as (c & s1 & Hfind & Hwp1 & Hc & Hres & Hnext1 & Hfresh & Hframe1).
  set (m1 := {| registry := registry m0; store := s1 |}) in *.
  assert (Hrep1 : represents m1 this) by by apply represents_frame.
  destruct (placed_run_represents after m1 this Hwp1 Hrep1)
    as (m2 & this2 & Hafter & Hrun2 & Hwp2 & Hrep2).
  destruct (placed_run_keeps after m1 Hwp1) as (m2' & Hafter' & _ & Hnext2 & Hkeep).
  assert (m2' = m2) as -> by congruence.
  assert (Hown : forall l, address_of (callback c) = Some l ->
            l < next (store m1) /\ forall name' i, ~ member_at (registry m1) name' i l).
  { intros l Hl. split; [by eapply placed_consistent_lt|].
    intros name' i Hmem. pose proof (member_at_lt m0 name' i l Hwp0 Hmem).
    specialize (Hfresh l Hl). lia. }
  pose proof (represents_stored_value name n m0 this Hrep0) as Hheld.
  eexists this, this2, m0, c, m1, m2, _.
  split; [done|]. split; [exact Hfindv|]. split; [done|]. split; [done|].
  split; [done|]. split; [done|]. split; [done|]. split; [done|].
  assert (Hheld1 : resolve (store m1) c =
            Some (from_option function CallbackContainer_default (entry name n this)))
    by (etrans; [exact Hres|exact Hheld]).
  split; [done|]. split; [|split].
  - rewrite <- Hheld1. apply resolve_frame. intros l Hl.
    destruct (Hown l Hl) as [Hlt Hnot]. by destruct (Hkeep l Hlt Hnot).
  - intros l Hl. destruct (Hown l Hl) as [Hlt Hnot]. split; [done|].
    by destruct (Hkeep l Hlt Hnot).
  - intros name' n'.
    destruct (find_callback_stored after this this2 name' n') as [_ Hfind2]; [done..|].
    eexists. split; [exact Hfind2|]. by apply represents_stored_value.
Qed.

End PlacementProperties.

(** ** Concrete runs *)

(** Scenario A: [add_builtin("upper", 1, Upper)] in a fresh registry. *)
Example scenario_builtin_upper :
  exists this,
    add_builtin SampleNop "upper" 1 SampleUpper sample_empty = Some (tt, this) /\
    find_builtin SampleNop "upper" 1 this = Some (SampleUpper, this) /\
    find_builtin SampleNop "upper" 2 this = Some (SampleNop, this) /\
    find_callback "upper" 1 this = Some (CallbackContainer_default, this).
Proof. eexists. repeat split; vm_compute; reflexivity. Qed.

(** A lookup does not create what [get_or_new] would. *)
Example get_or_new_creates_get_does_not :
  (snd <$> get_or_new SampleNop "lower" 1 sample_empty) <> Some sample_empty /\
  (snd <$> get "lower" 1 sample_empty) = Some sample_empty.
Proof. split; [vm_compute; discriminate | reflexivity]. Qed.


(** Nothing in [sample_calls] registers [("upper", 3)]. *)
Lemma unregistered_lookup_witness :
  forallb (fun r => negb (bool_decide (key_of r = ("upper", 3%N)))) sample_calls = true /\
  exists this,
    run SampleNop sample_calls FunctionStorage_default = Some (tt, this) /\
    find_builtin SampleNop "upper" 3 this = Some (SampleNop, this) /\
    find_callback "upper" 3 this = Some (CallbackContainer_default, this).
Proof.
  split; [vm_compute; reflexivity|].
  apply (unregistered_lookup SampleOp SampleNop SampleValueFn SampleStreamingFn
           sample_calls "upper" 3%N).
  vm_compute; reflexivity.
Defined.

(** [("upper", 1)] only ever had [add_builtin] calls in [sample_calls]. *)
Lemma field_independence_witness :
  forallb (fun r => negb (callback_for "upper" 1 r)) sample_calls = true /\
  exists this,
    run SampleNop sample_calls FunctionStorage_default = Some (tt, this) /\
    find_callback "upper" 1 this = Some (CallbackContainer_default, this).
Proof.
  split; [vm_compute; reflexivity|].
  apply (proj1 (proj2 (proj2 (proj2
           (field_independence SampleOp SampleNop SampleValueFn SampleStreamingFn
              "upper" 1%N))))).
  vm_compute; reflexivity.
Defined.

(** ["upper"] is registered under the arities 1 and 2 in [sample_calls]. *)
Lemma arity_separation_witness :
  (1 <> 2)%N /\
  exists this only without,
    run SampleNop sample_calls sample_empty = Some (tt, this) /\
    run SampleNop (filter (fun r => key_of r = ("upper", 1%N)) sample_calls) sample_empty
      = Some (tt, only) /\
    run SampleNop (filter (fun r => key_of r <> ("upper", 2%N)) sample_calls) sample_empty
      = Some (tt, without) /\
    fst <$> find_builtin SampleNop "upper" 1 this = fst <$> find_builtin SampleNop "upper" 1 only /\
    fst <$> find_callback "upper" 1 this = fst <$> find_callback "upper" 1 only /\
    fst <$> find_builtin SampleNop "upper" 1 this = fst <$> find_builtin SampleNop "upper" 1 without /\
    fst <$> find_callback "upper" 1 this = fst <$> find_callback "upper" 1 without /\
    (forall a, a = 1%N \/ a = 2%N ->
       fst <$> find_builtin SampleNop "upper" a this =
         match last (registered_ops "upper" a sample_calls) with
         | Some o => Some o
         | None => fst <$> find_builtin SampleNop "upper" a sample_empty
         end /\
       fst <$> find_callback "upper" a this =
         match last (registered_callbacks "upper" a sample_calls) with
         | Some c => Some c
         | None => fst <$> find_callback "upper" a sample_empty
         end /\
       (existsb (fun r => bool_decide (key_of r = ("upper", a))) sample_calls = true ->
        exists p d,
          get "upper" a this = Some (Some p, this) /\
          deref p this = Some (d, this) /\
          num_args d = a)) /\
    (forall p1 p2,
       get "upper" 1 this = Some (Some p1, this) ->
       get "upper" 2 this = Some (Some p2, this) ->
       p1 <> p2).
Proof.
  split; [lia|].
  apply (arity_separation SampleOp SampleNop SampleValueFn SampleStreamingFn
           "upper" 1%N 2%N sample_calls sample_empty).
  lia.
Defined.

(** In [sample_calls] the name ["upper"] has opcode [SampleLower] and no
    callback under arity 1, and a value callback and no opcode under
    arity 2, in two elements of one vector. *)
Example upper_arities_hold_their_own_data :
  fst <$> find_builtin SampleNop "upper" 1 sample_registered = Some SampleLower /\
  fst <$> find_callback "upper" 1 sample_registered = Some CallbackContainer_default /\
  fst <$> find_builtin SampleNop "upper" 2 sample_registered = Some SampleNop /\
  fst <$> find_callback "upper" 2 sample_registered =
    Some (CallbackContainer_value sample_upper) /\
  fst <$> get "upper" 1 sample_registered = Some (Some ("upper", 0%nat)) /\
  fst <$> get "upper" 2 sample_registered = Some (Some ("upper", 1%nat)).
Proof. repeat split; vm_compute; reflexivity. Qed.

(** A streaming callback registered over a value-returning one for
    [("join", 2)] leaves the registry that registering it alone leaves. *)
Lemma later_registration_replaces_witness :
  rewrites (value_call "join" 2 sample_upper
              : Registration SampleOp SampleValueFn SampleStreamingFn)
           (streaming_call "join" 2 sample_print) = true /\
  (do _ <- register SampleNop (value_call "join" 2 sample_upper);
   register SampleNop (streaming_call "join" 2 sample_print)) sample_registered =
    register SampleNop (streaming_call "join" 2 sample_print) sample_registered.
Proof.
  split; [reflexivity|].
  apply (later_registration_replaces SampleOp SampleNop SampleValueFn SampleStreamingFn
           (value_call "join" 2 sample_upper)
           (streaming_call "join" 2 sample_print)
           sample_registered).
  reflexivity.
Defined.

(** Two new arities of ["upper"], registered in either order. *)
Lemma registrations_commute_witness :
  rewrites (builtin_call "upper" 3 SampleUpper
              : Registration SampleOp SampleValueFn SampleStreamingFn)
           (builtin_call "upper" 4 SampleLower) = false /\
  exists this12 this21,
    (do _ <- register SampleNop (builtin_call "upper" 3 SampleUpper);
     register SampleNop (builtin_call "upper" 4 SampleLower)) sample_registered
      = Some (tt, this12) /\
    (do _ <- register SampleNop (builtin_call "upper" 4 SampleLower);
     register SampleNop (builtin_call "upper" 3 SampleUpper)) sample_registered
      = Some (tt, this21) /\
    (forall name n,
       fst <$> find_builtin SampleNop name n this12 =
         fst <$> find_builtin SampleNop name n this21 /\
       fst <$> find_callback name n this12 = fst <$> find_callback name n this21) /\
    (("upper", 3%N) = ("upper", 4%N) \/ "upper" <> "upper" -> this12 = this21) /\
    (forall name,
       (is_Some (m_map this12 !! name) <-> is_Some (m_map this21 !! name)) /\
       default [] (m_map this12 !! name) ≡ₚ default [] (m_map this21 !! name)).
Proof.
  split; [reflexivity|].
  apply (registrations_commute SampleOp SampleNop SampleValueFn SampleStreamingFn
           (builtin_call "upper" 3 SampleUpper)
           (builtin_call "upper" 4 SampleLower)
           sample_registered).
  reflexivity.
Defined.

(** In that order-sensitive case the two registries do differ: the
    elements are stored in the order the arities were first registered. *)
Example new_arities_are_stored_in_call_order :
  (do _ <- register SampleNop (builtin_call "upper" 3 SampleUpper);
   register SampleNop (builtin_call "upper" 4 SampleLower)) sample_registered <>
  (do _ <- register SampleNop (builtin_call "upper" 4 SampleLower);
   register SampleNop (builtin_call "upper" 3 SampleUpper)) sample_registered.
Proof. vm_compute. discriminate. Qed.

(** Registering an empty container for [("join", 2)] makes the key report
    no callback, while the element still holds the old payload. *)
Example empty_container_unsets_callback :
  exists this,
    add_callback SampleNop "join" 2
      (CallbackContainer_default : CallbackContainer SampleValueFn SampleStreamingFn)
      sample_registered = Some (tt, this) /\
    fst <$> find_callback "join" 2 sample_registered =
      Some (CallbackContainer_value sample_lower) /\
    fst <$> find_callback "join" 2 this = Some CallbackContainer_default /\
    function <$> entry "join" 2 this =
      Some {| type := EMPTY; callback := value sample_lower |}.
Proof. eexists. repeat split; vm_compute; reflexivity. Qed.

(** The copy in memory: after the sample registrations, with vectors that
    reallocate on every append, the lookup of [("join", 2)] returns a
    container whose member reads as [sample_lower].  A streaming callback
    registered for the key afterwards is constructed in the element's
    storage; the element then reads as that callback and the returned
    container as before. *)
Example copy_outlives_overwrite :
  exists m0 c m1 m2,
    placed_run SampleNop (fun _ => true) sample_calls Memory_default = Some (tt, m0) /\
    placed_find_callback "join" 2 m0 = Some (c, m1) /\
    placed_run SampleNop (fun _ => true)
      [streaming_call "join" 2 sample_print; builtin_call "join" 3 SampleUpper] m1 =
      Some (tt, m2) /\
    resolve (store m1) c = Some (CallbackContainer_value sample_lower) /\
    (function <$> entry "join" 2 (registry m1)) ≫= resolve (store m1) =
      Some (CallbackContainer_value sample_lower) /\
    (function <$> entry "join" 2 (registry m2)) ≫= resolve (store m2) =
      Some (CallbackContainer_streaming sample_print) /\
    resolve (store m2) c = Some (CallbackContainer_value sample_lower) /\
    address_of (callback c) <>
      (function <$> entry "join" 2 (registry m2)) ≫= (fun x => address_of (callback x)).
Proof.
  eexists _, _, _, _.
  split; [vm_compute; reflexivity|]. split; [vm_compute; reflexivity|].
  split; [vm_compute; reflexivity|]. repeat split; try (vm_compute; reflexivity).
  vm_compute. discriminate.
Qed.
